(** * glm_mda_diffusion: the hydrodynamic-radius pipeline

    A shallow embedding of [glm_mda_diffusion/glm_mda_diffusion.py]:
    the sequence parser [_bead_description_compact], the radius expanders
    [_bead_steric_radii] and [_bead_hydrodynamic_radii], and the body of
    [protein_hydrodynamic_radius] (ensemble loop, mobility reduction,
    bootstrap loop).

    Conventions of the model.
    - Python [str] is [string]; one-character strings are [ascii], so
      the characters of a sequence are those of one byte.
    - Python [float] and numpy [float64] are idealised as real numbers
      ([R]): rounding, overflow and the infinities are not modelled.  The
      one non-finite value the program can produce by itself, the [nan]
      that [np.std] returns for an empty list, is a constructor of
      [npfloat].
    - A raised exception is [inl e]; a returned value is [inr v].
    - The dictionary [aminoacid_masses] is a [gmap ascii R].
    - [sarw_spheres.generateChain], [pygrpy.grpy_tensors.muTT],
      [np.random.choice] and [np.linalg.inv] are collaborators outside the
      repository: they are parameters of the model.  The two generators
      thread an abstract state and are taken to return; [np.linalg.inv]
      may raise [LinAlgError].
    - The progress bar ([tqdm] yields the same indices as [range]) and
      the command-line wrapper [main] are left out. *)

From Stdlib Require Import Reals Lra Lia ZArith String Ascii List.
From stdpp Require Import gmap strings list.
Import ListNotations.

Local Open Scope string_scope.

(** ** Exceptions *)

Inductive pyerror : Type :=
| ValueError (msg : string)
| KeyError (key : ascii)
| ZeroDivisionError
| LinAlgError
| IndexError.

Definition result (A : Type) : Type := (pyerror + A)%type.

Definition raise {A : Type} (e : pyerror) : result A := inl e.

Definition rbind {A B : Type} (x : result A) (f : A -> result B) : result B :=
  match x with
  | inl e => inl e
  | inr a => f a
  end.

Notation "'let*' x ':=' c 'in' k" := (rbind c (fun x => k))
  (at level 10, x name, c at level 200, k at level 200).

(** ** Strings as Python indexes them *)

Module PyStr.

(** [block[0]], when [len(block) > 0]. *)
Definition first (s : string) : option ascii := String.get 0 s.

(** [block[-1]], when [len(block) > 0]. *)
Fixpoint last (s : string) : option ascii :=
  match s with
  | EmptyString => None
  | String c EmptyString => Some c
  | String _ rest => last rest
  end.

(** [block[:-1]]. *)
Fixpoint drop_last (s : string) : string :=
  match s with
  | EmptyString => EmptyString
  | String _ EmptyString => EmptyString
  | String c rest => String c (drop_last rest)
  end.

(** [block[1:-1]]. *)
Definition interior (s : string) : string :=
  match s with
  | EmptyString => EmptyString
  | String _ rest => drop_last rest
  end.

Definition holds (c : ascii) (o : option ascii) : bool :=
  match o with
  | Some d => Ascii.eqb d c
  | None => false
  end.

End PyStr.

(** ** The regular expression [(\[[A-Z].*?\])] and [re.split] *)

Module Re.

Definition newline : ascii := ascii_of_nat 10.

(** The class [[A-Z]]. *)
Definition is_upper (c : ascii) : bool :=
  (65 <=? nat_of_ascii c)%nat && (nat_of_ascii c <=? 90)%nat.

(** [.*?\]] at the head of [s]: the lazy star takes characters other
    than a newline one at a time and stops at the first ["]"].  The
    result is the matched text (closing bracket included) and the rest
    of the input. *)
Fixpoint lazy_to_close (s : string) : option (string * string) :=
  match s with
  | EmptyString => None
  | String c rest =>
      if Ascii.eqb c "]" then Some (String c EmptyString, rest)
      else if Ascii.eqb c newline then None
      else match lazy_to_close rest with
           | Some (m, rest') => Some (String c m, rest')
           | None => None
           end
  end.

(** The whole pattern anchored at the head of [s]. *)
Definition match_here (s : string) : option (string * string) :=
  match s with
  | String b (String u rest) =>
      if Ascii.eqb b "[" && is_upper u then
        match lazy_to_close rest with
        | Some (m, rest') => Some (String b (String u m), rest')
        | None => None
        end
      else None
  | _ => None
  end.

(** [re.search]: the leftmost match, as (text before, match, text
    after). *)
Fixpoint search (s : string) : option (string * string * string) :=
  match match_here s with
  | Some (m, rest) => Some (EmptyString, m, rest)
  | None =>
      match s with
      | EmptyString => None
      | String c s' =>
          match search s' with
          | Some (pre, m, rest) => Some (String c pre, m, rest)
          | None => None
          end
      end
  end.

(** [re.split] with the pattern's single capturing group: the text
    before each match, the match itself, and at the end the text after
    the last match.  Each round consumes a match of at least three
    characters, so [fuel] rounds with [fuel > len(s)] are never used
    up (see [split_fuel_enough]). *)
Fixpoint split_loop (fuel : nat) (s : string) : list string :=
  match fuel with
  | O => [s]
  | S fuel' =>
      match search s with
      | Some (pre, m, rest) => pre :: m :: split_loop fuel' rest
      | None => [s]
      end
  end.

Definition split (s : string) : list string :=
  split_loop (S (String.length s)) s.

End Re.

(** ** Floating-point operations, idealised *)

Local Open Scope R_scope.

(** [x / d] on Python floats: division by zero raises. *)
Definition float_div (x d : R) : result R :=
  if Req_dec_T d 0 then raise ZeroDivisionError else inr (x / d).

(** [x ** y] for a base [x >= 0] and an exponent [y > 0] (the program
    only uses [y = 1/3]): [0.0 ** y] is [0.0].  For a negative base
    and a fractional exponent Python returns a complex number, which has
    no counterpart here; statements about the value of a radius assume a
    non-negative mass and a positive density. *)
Definition float_pow (x y : R) : R :=
  if Req_dec_T x 0 then 0 else Rpower x y.

(** ** The mass table *)

Definition default_aminoacid_masses : gmap ascii R :=
  list_to_map
    [ ("A"%char, 71.08); ("C"%char, 103.14); ("D"%char, 115.09);
      ("E"%char, 129.12); ("F"%char, 147.18); ("G"%char, 57.06);
      ("H"%char, 137.15); ("I"%char, 113.17); ("K"%char, 128.18);
      ("L"%char, 113.17); ("M"%char, 131.21); ("N"%char, 114.11);
      ("P"%char, 97.12); ("Q"%char, 128.41); ("R"%char, 156.2);
      ("S"%char, 87.08); ("T"%char, 101.11); ("V"%char, 99.14);
      ("W"%char, 186.21); ("Y"%char, 163.18); ("Z"%char, 0);
      ("O"%char, 0); ("U"%char, 0); ("J"%char, 0); ("X"%char, 0);
      ("B"%char, 0) ].

(** ** The sequence parser *)

(** One entry [[hr, sr, n]] of the compact bead description. *)
Definition bead : Type := (R * R * Z)%type.

Definition bead_hr (b : bead) : R := fst (fst b).
Definition bead_sr (b : bead) : R := snd (fst b).
Definition bead_n (b : bead) : Z := snd b.

(** [sum(aminoacid_masses[aa] for aa in residues)], with the running
    total [acc]: the first symbol missing from the table raises
    [KeyError]. *)
Fixpoint sum_masses (aminoacid_masses : gmap ascii R) (residues : string)
    (acc : R) : result R :=
  match residues with
  | EmptyString => inr acc
  | String aa rest =>
      match aminoacid_masses !! aa with
      | Some m => sum_masses aminoacid_masses rest (acc + m)
      | None => raise (KeyError aa)
      end
  end.

(** [len(block) >= 2 and block[0] == "[" and block[-1] == "]"]. *)
Definition is_domain_block (block : string) : bool :=
  (2 <=? String.length block)%nat
  && PyStr.holds "[" (PyStr.first block)
  && PyStr.holds "]" (PyStr.last block).

(** [len(block) > 0 and block[0] != "[" and block[-1] != "]"]. *)
Definition is_linker_block (block : string) : bool :=
  (0 <? String.length block)%nat
  && negb (PyStr.holds "[" (PyStr.first block))
  && negb (PyStr.holds "]" (PyStr.last block)).

(** [(block_mass * (3 / (4 * math.pi)) / effective_density) ** (1 / 3)],
    once the division is known not to raise. *)
Definition excluded_volume_radius (block_mass effective_density : R) : R :=
  float_pow (block_mass * (3 / (4 * PI)) / effective_density) (1 / 3).

Section Parser.

Variables (hydrodynamic_radius steric_radius : R).
Variables (effective_density hydration_thickness : R).
Variable aminoacid_masses : gmap ascii R.

(** The body of the loop over [blocks]: the bead appended for one
    block, or the exception raised. *)
Definition bead_of_block (block : string) : result bead :=
  if is_domain_block block then
    let* block_mass := sum_masses aminoacid_masses (PyStr.interior block) 0 in
    let* volume := float_div (block_mass * (3 / (4 * PI))) effective_density in
    let block_excluded_volume_radius := float_pow volume (1 / 3) in
    let block_radius := block_excluded_volume_radius + hydration_thickness in
    inr (block_radius, block_radius, 1%Z)
  else if is_linker_block block then
    inr (hydrodynamic_radius, steric_radius, Z.of_nat (String.length block))
  else
    raise (ValueError ("Malformed seqence passed: " ++ block)%string).

(** [for block in blocks: ...] with the list built so far. *)
Fixpoint for_blocks (blocks : list string) (bead_description_compact : list bead)
    : result (list bead) :=
  match blocks with
  | [] => inr bead_description_compact
  | block :: rest =>
      let* b := bead_of_block block in
      for_blocks rest (bead_description_compact ++ [b])%list
  end.

Definition _bead_description_compact (annotated_sequence : string)
    : result (list bead) :=
  for_blocks (Re.split annotated_sequence) [].

End Parser.

(** ** The radius expanders *)

(** [sum(([sr] * n for (hr, sr, n) in bdc), [])]: [sum] adds each
    repetition to the right of the list built so far; [[x] * n] is empty
    for [n <= 0]. *)
Definition _bead_steric_radii (bead_description_compact : list bead) : list R :=
  fold_left (fun acc b => (acc ++ replicate (Z.to_nat (bead_n b)) (bead_sr b))%list)
            bead_description_compact [].

Definition _bead_hydrodynamic_radii (bead_description_compact : list bead) : list R :=
  fold_left (fun acc b => (acc ++ replicate (Z.to_nat (bead_n b)) (bead_hr b))%list)
            bead_description_compact [].

(** ** numpy arrays as nested lists *)

(** A two-dimensional array, row by row. *)
Definition matrix : Type := list (list R).

(** A mobility tensor of shape [(N, N, 3, 3)]: [t[i][j]] is the 3x3 block
    coupling beads [i] and [j]. *)
Definition tensor : Type := list (list matrix).

(** The value of [np.std]: a finite float or [nan]. *)
Inductive npfloat : Type :=
| Finite (x : R)
| NaN.

Module Np.

(** Element-wise [a + b] of two arrays of one shape. *)
Definition add_matrix (a b : matrix) : matrix := zip_with (zip_with Rplus) a b.
Definition add (a b : tensor) : tensor := zip_with (zip_with add_matrix) a b.

(** Element-wise [a / c]. *)
Definition divide (a : tensor) (c : R) : tensor :=
  map (map (map (map (fun x => x / c)))) a.

(** [np.mean(stack, axis=0)] for the stack [first :: rest]: the slices
    are added up from the first on, and the sum is divided by their
    number. *)
Definition mean (first : tensor) (rest : list tensor) : tensor :=
  divide (fold_left add rest first) (INR (S (length rest))).

(** The sum of the entries [block[k][k]], [block[k+1][k+1]], ... of the
    rows of [block]; an entry past the end of a row counts for nothing. *)
Fixpoint diagonal_from (k : nat) (block : matrix) : R :=
  match block with
  | [] => 0
  | row :: rows => nth k row 0 + diagonal_from (S k) rows
  end.

(** The sum of the main diagonal of one block. *)
Definition diagonal_sum (block : matrix) : R := diagonal_from 0 block.

(** [np.trace(a, axis1=-2, axis2=-1)]: every block is replaced by its
    trace. *)
Definition trace (a : tensor) : matrix := map (map diagonal_sum) a.

Definition sum_list (l : list R) : R := foldr Rplus 0 l.

(** [np.sum(m)]: all entries. *)
Definition sum (m : matrix) : R := sum_list (concat m).

(** [np.std(l)] with the default [ddof=0]:
    [sqrt(mean(abs(l - mean(l)) ** 2))]; the mean of no numbers is
    [nan]. *)
Definition std (l : list R) : npfloat :=
  match l with
  | [] => NaN
  | _ =>
      let n := INR (length l) in
      let m := sum_list l / n in
      Finite (sqrt (sum_list (map (fun x => Rabs (x - m) ^ 2) l) / n))
  end.

End Np.

(** ** The computation of [protein_hydrodynamic_radius] *)

(** Bead centres, one row of three coordinates per bead. *)
Definition conformation : Type := list (list R).

(** The calls that consume randomness, in the order they are made. *)
Inductive call : Type :=
| GenerateChain (radii : list R)
| RandomChoice (a size : nat).

(** The returned dictionary: both keys are always present, and the value
    under ["protein_rh_sigma"] may be [None]. *)
Record rh_result : Type := {
  protein_rh : R;
  protein_rh_sigma : option npfloat
}.

Definition default_steric_radius : R := 1.9025.
Definition default_hydrodynamic_radius : R := 4.2.
Definition default_effective_density : R := 0.52.
Definition default_hydration_thickness : R := 3.0.
Definition default_ensemble_size : Z := 30.
Definition default_bootstrap_rounds : option Z := Some 10%Z.

Section Pipeline.

(** The state of the random generators behind [sarw_spheres] and
    [np.random]. *)
Variable World : Type.

(** [sarw_spheres.generateChain(radii)]. *)
Variable generateChain : list R -> World -> conformation * World.

(** [pygrpy.grpy_tensors.muTT(locations, radii)]. *)
Variable muTT : conformation -> list R -> tensor.

(** [np.random.choice(a, size)]. *)
Variable random_choice : nat -> nat -> World -> list nat * World.

(** [np.linalg.inv(m)]; [None] stands for [LinAlgError]. *)
Variable linalg_inv : matrix -> option matrix.

Record machine : Type := {
  world : World;
  calls : list call
}.

(** A computation that may raise and that uses the generators. *)
Definition M (A : Type) : Type := machine -> result A * machine.

Definition ret {A : Type} (a : A) : M A := fun s => (inr a, s).

Definition bind {A B : Type} (c : M A) (f : A -> M B) : M B :=
  fun s =>
    match c s with
    | (inl e, s') => (inl e, s')
    | (inr a, s') => f a s'
    end.

Definition lift {A : Type} (r : result A) : M A := fun s => (r, s).

Notation "'let!' x ':=' c 'in' k" := (bind c (fun x => k))
  (at level 10, x name, c at level 200, k at level 200).

Definition call_generateChain (radii : list R) : M conformation :=
  fun s =>
    let (locations, w) := generateChain radii (world s) in
    (inr locations, {| world := w; calls := calls s ++ [GenerateChain radii] |}).

Definition call_random_choice (a size : nat) : M (list nat) :=
  fun s =>
    let (indices, w) := random_choice a size (world s) in
    (inr indices, {| world := w; calls := calls s ++ [RandomChoice a size] |}).

(** [for i in ensemble_iterable: conformation_ensemble.append(...)]. *)
Fixpoint ensemble_loop (rounds : nat) (bead_steric_radii : list R)
    (conformation_ensemble : list conformation) : M (list conformation) :=
  match rounds with
  | O => ret conformation_ensemble
  | S rounds' =>
      let! locations := call_generateChain bead_steric_radii in
      ensemble_loop rounds' bead_steric_radii (conformation_ensemble ++ [locations])
  end.

(** Lines 130-135, and again lines 147-151 on the resampled stack:
    mean over the ensemble, trace of every block, inverse, sum of the
    entries, division by [2 * np.pi].  For an empty stack [np.mean]
    gives a zero-dimensional [nan] and [np.trace] rejects it. *)
Definition effective_radius (grand_grand_mu : list tensor) : result R :=
  match grand_grand_mu with
  | [] => raise (ValueError "diag requires an array of at least two dimensions")
  | first :: rest =>
      let grand_mu := Np.mean first rest in
      let grand_trace := Np.trace grand_mu in
      match linalg_inv grand_trace with
      | None => raise LinAlgError
      | Some inv_mat =>
          let total := Np.sum inv_mat in
          inr (total / (2 * PI))
      end
  end.

(** [grand_grand_mu[indices]]: one slice per index. *)
Fixpoint take_indices (grand_grand_mu : list tensor) (indices : list nat)
    : result (list tensor) :=
  match indices with
  | [] => inr []
  | i :: rest =>
      match grand_grand_mu !! i with
      | None => raise IndexError
      | Some t =>
          let* ts := take_indices grand_grand_mu rest in
          inr (t :: ts)
      end
  end.

(** [for i in range(bootstrap_rounds): ...]. *)
Fixpoint bootstrap_loop (rounds : nat) (grand_grand_mu : list tensor)
    (effective_rh_list : list R) : M (list R) :=
  match rounds with
  | O => ret effective_rh_list
  | S rounds' =>
      let ensemble_size := length grand_grand_mu in
      let! indices := call_random_choice ensemble_size ensemble_size in
      let! b_grand_grand_mu := lift (take_indices grand_grand_mu indices) in
      let! b_effective_rh := lift (effective_radius b_grand_grand_mu) in
      bootstrap_loop rounds' grand_grand_mu (effective_rh_list ++ [b_effective_rh])
  end.

Definition protein_hydrodynamic_radius
    (sequence : string)
    (steric_radius hydrodynamic_radius effective_density hydration_thickness : R)
    (ensemble_size : Z) (bootstrap_rounds : option Z)
    (aminoacid_masses : gmap ascii R) : M rh_result :=
  let! bdc := lift (_bead_description_compact hydrodynamic_radius steric_radius
                      effective_density hydration_thickness aminoacid_masses
                      sequence) in
  let bead_steric_radii := _bead_steric_radii bdc in
  let bead_hydrodynamic_radii := _bead_hydrodynamic_radii bdc in
  let! conformation_ensemble :=
    ensemble_loop (Z.to_nat ensemble_size) bead_steric_radii [] in
  let grand_grand_mu :=
    map (fun locations => muTT locations bead_hydrodynamic_radii)
        conformation_ensemble in
  let! effective_rh := lift (effective_radius grand_grand_mu) in
  match bootstrap_rounds with
  | None =>
      ret {| protein_rh := effective_rh; protein_rh_sigma := None |}
  | Some rounds =>
      let! effective_rh_list :=
        bootstrap_loop (Z.to_nat rounds) grand_grand_mu [] in
      ret {| protein_rh := effective_rh;
             protein_rh_sigma := Some (Np.std effective_rh_list) |}
  end.

End Pipeline.

(** ** Vocabulary of the statements *)

Section Draws.

Context {World : Type}.
Variable generateChain : list R -> World -> conformation * World.
Variable random_choice : nat -> nat -> World -> list nat * World.

(** The conformations that [rounds] successive calls of the generator
    return, and the generator state they leave. *)
Fixpoint chains (rounds : nat) (radii : list R) (w : World)
    : list conformation * World :=
  match rounds with
  | O => ([], w)
  | S rounds' =>
      let (locations, w1) := generateChain radii w in
      let (rest, w2) := chains rounds' radii w1 in
      (locations :: rest, w2)
  end.

(** The index lists that [rounds] successive calls of
    [np.random.choice(m, m)] return, and the generator state they leave. *)
Fixpoint draws (rounds : nat) (m : nat) (w : World)
    : list (list nat) * World :=
  match rounds with
  | O => ([], w)
  | S rounds' =>
      let (indices, w1) := random_choice m m w in
      let (rest, w2) := draws rounds' m w1 in
      (indices :: rest, w2)
  end.

End Draws.

(** [sum(group.count for group in bdc)]. *)
Definition total_count (bead_description_compact : list bead) : Z :=
  foldr (fun b acc => (bead_n b + acc)%Z) 0%Z bead_description_compact.

(** The entry [t[i][j][k][l]] of a tensor. *)
Definition entry (t : tensor) (i j k l : nat) : R :=
  nth l (nth k (nth j (nth i t []) []) []) 0.

(** A tensor of shape [(N, N, 3, 3)]. *)
Definition has_shape (N : nat) (t : tensor) : Prop :=
  length t = N
  /\ Forall (fun row =>
        length row = N
        /\ Forall (fun block =>
              length block = 3%nat
              /\ Forall (fun r => length r = 3%nat) block) row) t.

(** The list [[f 0; ...; f (n - 1)]]. *)
Definition tabulate {A : Type} (n : nat) (f : nat -> A) : list A :=
  map f (seq 0 n).

(** The tensor of shape [(N, N, 3, 3)] with the entries [f i j k l]. *)
Definition tabulate_tensor (N : nat) (f : nat -> nat -> nat -> nat -> R) : tensor :=
  tabulate N (fun i => tabulate N (fun j =>
    tabulate 3 (fun k => tabulate 3 (fun l => f i j k l)))).

(** The reduction in the words of the design document, entry by
    entry. *)
Module Spec.

(** Step 1: the mean of the entries [t[i][j][k][l]] over the [M] tensors
    of the ensemble. *)
Definition grand_mu (grand_grand_mu : list tensor) (i j k l : nat) : R :=
  Np.sum_list (map (fun t => entry t i j k l) grand_grand_mu)
  / INR (length grand_grand_mu).

(** Step 2: the [N x N] matrix of the traces of the 3x3 blocks of the
    mean tensor. *)
Definition grand_trace (N : nat) (grand_grand_mu : list tensor) : matrix :=
  tabulate N (fun i => tabulate N (fun j =>
    grand_mu grand_grand_mu i j 0 0
    + grand_mu grand_grand_mu i j 1 1
    + grand_mu grand_grand_mu i j 2 2)).

(** Steps 3 and 4: the inverse of that matrix, the sum of all its
    entries, and the division by [2 * pi]. *)
Definition effective_rh (linalg_inv : matrix -> option matrix) (N : nat)
    (grand_grand_mu : list tensor) : result R :=
  match linalg_inv (grand_trace N grand_grand_mu) with
  | None => raise LinAlgError
  | Some inv_mat => inr (Np.sum_list (map Np.sum_list inv_mat) / (2 * PI))
  end.

(** The population standard deviation of the values [xs], [n] in
    number: the square root of the mean of the squared deviations from
    the mean, both means dividing by [n]. *)
Definition population_std (xs : list R) (n : R) : R :=
  let mean := Np.sum_list xs / n in
  sqrt (Np.sum_list (map (fun x => (x - mean) ^ 2) xs) / n).

End Spec.

(** The tensor of a single bead whose block is [x] times the identity. *)
Definition one_bead_tensor (x : R) : tensor :=
  [[ [[x; 0; 0]; [0; x; 0]; [0; 0; x]] ]].

(** Annotated sequences as the design document describes them: free
    runs of residues and bracketed runs, in the order they are written. *)
Inductive segment : Type :=
| Free (residues : string)
| Bracketed (residues : string).

Definition render_segment (seg : segment) : string :=
  match seg with
  | Free residues => residues
  | Bracketed residues => "[" ++ residues ++ "]"
  end.

(** The annotated sequence that a list of segments spells. *)
Fixpoint render (segs : list segment) : string :=
  match segs with
  | [] => ""
  | seg :: rest => render_segment seg ++ render rest
  end.

(** Every character of [s] passes the test [p]. *)
Fixpoint string_forall (p : ascii -> bool) (s : string) : bool :=
  match s with
  | EmptyString => true
  | String c rest => p c && string_forall p rest
  end.

(** The character [c] occurs in [s]. *)
Fixpoint occurs (c : ascii) (s : string) : Prop :=
  match s with
  | EmptyString => False
  | String d rest => c = d \/ occurs c rest
  end.

Definition is_bracket (c : ascii) : bool := Ascii.eqb c "[" || Ascii.eqb c "]".

(** A free run: at least one residue, no bracket. *)
Definition wf_free (residues : string) : bool :=
  (0 <? String.length residues)%nat
  && string_forall (fun c => negb (is_bracket c)) residues.

(** A bracketed run: an upper-case letter right after the opening
    bracket, and neither a closing bracket nor a line break inside. *)
Definition wf_bracketed (residues : string) : bool :=
  match residues with
  | EmptyString => false
  | String u rest =>
      Re.is_upper u
      && string_forall
           (fun c => negb (Ascii.eqb c "]") && negb (Ascii.eqb c Re.newline)) rest
  end.

Definition starts_free (segs : list segment) : bool :=
  match segs with
  | Free _ :: _ => true
  | _ => false
  end.

(** Well-formed segments: each run is well formed and no two free runs
    are adjacent (they would be one run). *)
Fixpoint wf_segments (segs : list segment) : bool :=
  match segs with
  | [] => true
  | Free residues :: rest =>
      wf_free residues && negb (starts_free rest) && wf_segments rest
  | Bracketed residues :: rest =>
      wf_bracketed residues && wf_segments rest
  end.

(** The beads a segment stands for: one per residue of a free run, one
    for a bracketed run. *)
Definition segment_count (seg : segment) : Z :=
  match seg with
  | Free residues => Z.of_nat (String.length residues)
  | Bracketed _ => 1%Z
  end.

Definition free_residues (segs : list segment) : Z :=
  foldr (fun seg acc =>
           match seg with
           | Free residues => (Z.of_nat (String.length residues) + acc)%Z
           | Bracketed _ => acc
           end) 0%Z segs.

Definition bracketed_segments (segs : list segment) : Z :=
  foldr (fun seg acc =>
           match seg with
           | Free _ => acc
           | Bracketed _ => (1 + acc)%Z
           end) 0%Z segs.

(** The blocks that the segments [segs] are cut into when the text [pre]
    of a free run is pending: a bracketed run closes the pending text,
    which may be empty. *)
Fixpoint blocks_from (pre : string) (segs : list segment) : list string :=
  match segs with
  | [] => [pre]
  | Free residues :: rest => blocks_from (pre ++ residues) rest
  | Bracketed residues :: rest =>
      pre :: ("[" ++ residues ++ "]") :: blocks_from "" rest
  end.

(** The bead group that stands for a segment: the linker constants and
    the number of residues for a free run; for a bracketed run one bead
    whose two radii are the excluded-volume radius of its mass plus the
    hydration thickness. *)
Definition bead_matches (hr sr density hydration : R) (masses : gmap ascii R)
    (seg : segment) (g : bead) : Prop :=
  match seg with
  | Free residues => g = (hr, sr, Z.of_nat (String.length residues))
  | Bracketed residues =>
      exists mass,
        sum_masses masses residues 0 = inr mass
        /\ g = (excluded_volume_radius mass density + hydration,
                excluded_volume_radius mass density + hydration, 1%Z)
  end.

(** Free and bracketed runs alternate, and the first and the last run
    are free; [after_free] tells whether the run before [segs] is a free
    one. *)
Fixpoint flanked (after_free : bool) (segs : list segment) : bool :=
  match segs with
  | [] => after_free
  | Free _ :: rest => negb after_free && flanked true rest
  | Bracketed _ :: rest => after_free && flanked false rest
  end.

(** Every residue of [residues] has a mass in the table. *)
Definition all_known (masses : gmap ascii R) (residues : string) : bool :=
  string_forall
    (fun c => match masses !! c with Some _ => true | None => false end)
    residues.

Definition bracketed_known (masses : gmap ascii R) (seg : segment) : bool :=
  match seg with
  | Free _ => true
  | Bracketed residues => all_known masses residues
  end.

(** ** The command-line wrapper and the example script *)

(** The namespace that [parser.parse_args()] returns in [main]; the
    conversion of the command line into it is [argparse]'s. *)
Record arguments : Type := {
  arg_sequence : string;
  arg_steric_radius : R;
  arg_hydrodynamic_radius : R;
  arg_effective_density : R;
  arg_hydration_thickness : R;
  arg_ensemble_size : Z;
  arg_bootstrap_rounds : option Z
}.

(** The namespace when only [--sequence] is given: the [default=] of
    each option. *)
Definition default_arguments (sequence : string) : arguments :=
  {| arg_sequence := sequence;
     arg_steric_radius := 1.9025;
     arg_hydrodynamic_radius := 4.2;
     arg_effective_density := 0.52;
     arg_hydration_thickness := 3.0;
     arg_ensemble_size := 30;
     arg_bootstrap_rounds := None |}.

(** What one call of [print] writes. *)
Inductive printed : Type :=
| PrintText (text : string)
| PrintFloat (x : R)
| PrintSigma (sigma : option npfloat).

Section Main.

Variable World : Type.
Variable generateChain : list R -> World -> conformation * World.
Variable muTT : conformation -> list R -> tensor.
Variable random_choice : nat -> nat -> World -> list nat * World.
Variable linalg_inv : matrix -> option matrix.

(** [main], from the call of [protein_hydrodynamic_radius] on: the lines
    written to the standard output, in order.  The mass table is not
    passed, so it is the default one. *)
Definition main (args : arguments) : M World (list printed) :=
  bind World
    (protein_hydrodynamic_radius World generateChain muTT random_choice linalg_inv
       (arg_sequence args) (arg_steric_radius args) (arg_hydrodynamic_radius args)
       (arg_effective_density args) (arg_hydration_thickness args)
       (arg_ensemble_size args) (arg_bootstrap_rounds args)
       default_aminoacid_masses)
    (fun result =>
       let head :=
         [PrintText "Computed GLM-MDA hydrodynamic radius [Ang]:";
          PrintFloat (protein_rh result)] in
       match arg_bootstrap_rounds args with
       | Some rounds =>
           if (0 <? rounds)%Z then
             ret World
               (head ++ [PrintText "MC uncertanity [Ang]:";
                         PrintSigma (protein_rh_sigma result)])%list
           else ret World head
       | None => ret World head
       end).

(** [examples/example.py], up to its [print(result)]. *)
Definition example_sequence : string :=
  "[GLPLPLKNENAIVDGDGTSVVTTKEDASTIFERDPNPANQVSAMVTGVILDENGD]PGESDESVENVDNDGEGGDKDDDKNGEDNDLDNKEHEEEKGDDDRGDDEEEDDAEGDNDSNDNEGDDDDDDDSGDDDDVDESGADEDDDDDSGD".

Definition example : M World rh_result :=
  protein_hydrodynamic_radius World generateChain muTT random_choice linalg_inv
    example_sequence 1.9025 4.2 0.52 3.0 30%Z (Some 10%Z)
    default_aminoacid_masses.

End Main.

(** The layout of the list that [re.split] returns: a text, then any
    number of times a bracket-delimited match and a text. *)
Inductive interleaved : list string -> Prop :=
| interleaved_last (text : string) : interleaved [text]
| interleaved_match (text found : string) (rest : list string) :
    is_domain_block found = true ->
    interleaved rest ->
    interleaved (text :: found :: rest).

(** [len(sequence)] summed over the blocks. *)
Definition total_length (blocks : list string) : nat :=
  foldr (fun block acc => (String.length block + acc)%nat) 0%nat blocks.

(** The sum of the counts that are positive. *)
Definition positive_count (bead_description_compact : list bead) : Z :=
  foldr (fun b acc => (Z.max 0 (bead_n b) + acc)%Z) 0%Z bead_description_compact.

(** Stand-ins for the collaborators, to run the model on. *)
Module StandIn.

(** A generator without state that returns no coordinates. *)
Definition generateChain (radii : list R) (w : unit) : conformation * unit :=
  ([], w).

(** Every mobility tensor is that of one bead with the identity block. *)
Definition muTT (locations : conformation) (radii : list R) : tensor :=
  one_bead_tensor 1.

(** The index 0, [size] times. *)
Definition random_choice (a size : nat) (w : unit) : list nat * unit :=
  (replicate size 0%nat, w).

(** The inverse of a matrix is taken to be the matrix itself. *)
Definition linalg_inv (m : matrix) : option matrix := Some m.

(** No matrix has an inverse. *)
Definition singular (m : matrix) : option matrix := None.

(** The mobility tensor of [N] uncoupled beads, for [N] radii: the
    identity block for a bead with itself, the zero block otherwise. *)
Definition uncoupled (locations : conformation) (radii : list R) : tensor :=
  tabulate_tensor (length radii)
    (fun i j k l => if (i =? j)%nat && (k =? l)%nat then 1 else 0).

Definition start : machine unit := {| world := tt; calls := [] |}.

End StandIn.

(** The group that stands for a segment, radii of domains left open:
    the linker triple with the number of residues for a free run, one
    bead with two equal radii for a bracketed run. *)
Definition segment_bead (hr sr : R) (seg : segment) (g : bead) : Prop :=
  match seg with
  | Free residues => g = (hr, sr, Z.of_nat (String.length residues))
  | Bracketed _ => bead_n g = 1%Z /\ bead_hr g = bead_sr g
  end.

(** * Properties *)

(** Evaluation of the model on concrete inputs, leaving the arithmetic of
    the real numbers as it stands. *)
Ltac run_model :=
  lazy -[Rplus Rminus Rmult Rdiv Rinv Ropp IZR INR PI sqrt Rabs pow Rpower
         Req_dec_T].

(** ** Running computations *)

Section MachineFacts.

Context {World : Type}.

Lemma bind_inr {A B : Type} (c : M World A) (f : A -> M World B) s b s' :
  bind World c f s = (inr b, s') ->
  exists a s1, c s = (inr a, s1) /\ f a s1 = (inr b, s').
Proof.
  unfold bind. destruct (c s) as [[e | a] s1]; [discriminate |].
  intros H. exists a, s1. split; [reflexivity | exact H].
Qed.

Lemma lift_inr {A : Type} (r : result A) s (a : A) s' :
  lift World r s = (inr a, s') -> r = inr a /\ s' = s.
Proof. unfold lift. intros H. injection H as -> ->. split; reflexivity. Qed.

End MachineFacts.

(** ** The ensemble loop *)

Section EnsembleFacts.

Context {World : Type}.
Variable generateChain : list R -> World -> conformation * World.

Lemma chains_length rounds radii w :
  length (fst (chains generateChain rounds radii w)) = rounds.
Proof.
  revert w. induction rounds as [| n IH]; intros w; simpl; [reflexivity |].
  destruct (generateChain radii w) as [locations w1].
  specialize (IH w1). destruct (chains generateChain n radii w1) as [rest w2].
  simpl in *. now rewrite IH.
Qed.

Lemma ensemble_loop_run rounds radii acc s :
  ensemble_loop World generateChain rounds radii acc s
  = (inr (acc ++ fst (chains generateChain rounds radii (world World s)))%list,
     {| world := snd (chains generateChain rounds radii (world World s));
        calls := (calls World s ++ replicate rounds (GenerateChain radii))%list |}).
Proof.
  revert acc s. induction rounds as [| n IH]; intros acc s; simpl.
  - unfold ret. rewrite !app_nil_r. now destruct s.
  - unfold bind, call_generateChain.
    destruct (generateChain radii (world World s)) as [locations w1].
    rewrite IH. simpl.
    destruct (chains generateChain n radii w1) as [rest w2]. simpl.
    rewrite <- !app_assoc. reflexivity.
Qed.

End EnsembleFacts.

(** ** The radius expanders *)

Lemma fold_left_app_flat_map {A B : Type} (f : A -> list B) (l : list A) (acc : list B) :
  fold_left (fun acc a => (acc ++ f a)%list) l acc = (acc ++ flat_map f l)%list.
Proof.
  revert acc. induction l as [| a l IH]; intros acc; simpl.
  - now rewrite app_nil_r.
  - rewrite IH. now rewrite <- app_assoc.
Qed.

Lemma length_flat_map_replicate {A : Type} (f : bead -> A) (bdc : list bead) :
  Forall (fun b => (0 <= bead_n b)%Z) bdc ->
  Z.of_nat (length (flat_map (fun b => replicate (Z.to_nat (bead_n b)) (f b)) bdc))
  = total_count bdc.
Proof.
  induction 1 as [| b bdc Hb _ IH]; simpl; [reflexivity |].
  rewrite length_app, length_replicate, Nat2Z.inj_add, IH. lia.
Qed.

(** C7.  The expanders repeat the steric (respectively hydrodynamic)
    radius of each group [count] times, group after group; the two arrays
    have one length, the sum of the counts. *)
Theorem expanders_repeat_each_radius (bdc : list bead) :
  Forall (fun b => (0 <= bead_n b)%Z) bdc ->
  _bead_steric_radii bdc
    = flat_map (fun b => replicate (Z.to_nat (bead_n b)) (bead_sr b)) bdc
  /\ _bead_hydrodynamic_radii bdc
    = flat_map (fun b => replicate (Z.to_nat (bead_n b)) (bead_hr b)) bdc
  /\ length (_bead_steric_radii bdc) = length (_bead_hydrodynamic_radii bdc)
  /\ Z.of_nat (length (_bead_steric_radii bdc)) = total_count bdc
  /\ Z.of_nat (length (_bead_hydrodynamic_radii bdc)) = total_count bdc.
Proof.
  intros Hn. unfold _bead_steric_radii, _bead_hydrodynamic_radii.
  rewrite !fold_left_app_flat_map. cbn [app].
  pose proof (length_flat_map_replicate bead_sr bdc Hn) as Hs.
  pose proof (length_flat_map_replicate bead_hr bdc Hn) as Hh.
  repeat split; try assumption; try reflexivity. lia.
Qed.

Lemma expanders_repeat_each_radius_witness :
  let bdc := [(4.2, 1.9025, 2%Z); (7, 7, 1%Z)] in
  _bead_steric_radii bdc = [1.9025; 1.9025; 7]
  /\ _bead_hydrodynamic_radii bdc = [4.2; 4.2; 7]
  /\ Z.of_nat (length (_bead_steric_radii bdc)) = total_count bdc.
Proof.
  intros bdc.
  assert (Hn : Forall (fun b => (0 <= bead_n b)%Z) bdc).
  { subst bdc. repeat constructor; simpl; lia. }
  destruct (expanders_repeat_each_radius bdc Hn) as (Hs & Hh & _ & Hl & _).
  split; [exact Hs | split; [exact Hh | exact Hl]].
Defined.

(** ** The splitter *)

Lemma append_cons c (a b : string) : (String c a ++ b)%string = String c (a ++ b).
Proof. reflexivity. Qed.

Lemma append_empty_l (b : string) : ("" ++ b)%string = b.
Proof. reflexivity. Qed.

Lemma append_assoc (a b c : string) : ((a ++ b) ++ c = a ++ (b ++ c))%string.
Proof.
  induction a as [| x a IH]; [reflexivity |].
  now rewrite !append_cons, IH.
Qed.

Lemma append_empty_r (a : string) : (a ++ "")%string = a.
Proof.
  induction a as [| x a IH]; [reflexivity |].
  now rewrite append_cons, IH.
Qed.

Lemma length_append (a b : string) :
  String.length (a ++ b) = (String.length a + String.length b)%nat.
Proof.
  induction a as [| x a IH]; [reflexivity |].
  rewrite append_cons. cbn [String.length]. now rewrite IH.
Qed.

Lemma string_forall_append p a b :
  string_forall p (a ++ b) = string_forall p a && string_forall p b.
Proof.
  induction a as [| x a IH]; [reflexivity |].
  rewrite append_cons. cbn [string_forall]. now rewrite IH, andb_assoc.
Qed.

Lemma string_forall_weaken (p q : ascii -> bool) s :
  (forall c, p c = true -> q c = true) ->
  string_forall p s = true -> string_forall q s = true.
Proof.
  intros Hpq. induction s as [| c s IH]; simpl; [reflexivity |].
  intros [Hc Hs]%andb_prop. rewrite (Hpq c Hc). simpl. now apply IH.
Qed.

(** The lazy star runs to the first closing bracket. *)
Lemma lazy_to_close_inside inside rest :
  string_forall
    (fun c => negb (Ascii.eqb c "]") && negb (Ascii.eqb c Re.newline)) inside = true ->
  Re.lazy_to_close (inside ++ String "]" rest)
  = Some ((inside ++ "]")%string, rest).
Proof.
  induction inside as [| c inside IH]; [reflexivity |].
  cbn [string_forall]. intros [[Hc Hn]%andb_prop Hs]%andb_prop.
  apply negb_true_iff in Hc, Hn.
  rewrite !append_cons. cbn [Re.lazy_to_close].
  rewrite Hc, Hn, (IH Hs). reflexivity.
Qed.

Lemma match_here_bracketed residues rest :
  wf_bracketed residues = true ->
  Re.match_here (("[" ++ residues ++ "]") ++ rest)
  = Some (("[" ++ residues ++ "]")%string, rest).
Proof.
  destruct residues as [| u inside]; [discriminate |].
  cbn [wf_bracketed]. intros [Hu Hs]%andb_prop.
  rewrite !append_cons, append_empty_l, !append_cons, append_assoc.
  rewrite append_cons, append_empty_l.
  unfold Re.match_here. rewrite Hu.
  change (Ascii.eqb "[" "[" && true) with true. cbv iota.
  now rewrite (lazy_to_close_inside inside rest Hs).
Qed.

Lemma match_here_not_open c s :
  Ascii.eqb c "[" = false -> Re.match_here (String c s) = None.
Proof. intros Hc. unfold Re.match_here. destruct s; [reflexivity |]. now rewrite Hc. Qed.

(** Text without an opening bracket holds no match. *)
Lemma search_no_open pre :
  string_forall (fun c => negb (Ascii.eqb c "[")) pre = true ->
  Re.search pre = None.
Proof.
  induction pre as [| c pre IH]; [reflexivity |].
  cbn [string_forall]. intros [Hc Hs]%andb_prop. apply negb_true_iff in Hc.
  cbn [Re.search]. rewrite (match_here_not_open c pre Hc), (IH Hs). reflexivity.
Qed.

(** The leftmost match after text without an opening bracket is the
    bracketed run that follows it. *)
Lemma search_bracketed pre residues rest :
  string_forall (fun c => negb (Ascii.eqb c "[")) pre = true ->
  wf_bracketed residues = true ->
  Re.search (pre ++ ("[" ++ residues ++ "]") ++ rest)
  = Some (pre, ("[" ++ residues ++ "]")%string, rest).
Proof.
  intros Hpre Hres. induction pre as [| c pre IH].
  - rewrite append_empty_l.
    pose proof (match_here_bracketed residues rest Hres) as Hm.
    destruct ((("[" ++ residues ++ "]") ++ rest)%string) eqn:E;
      cbn [Re.search]; rewrite Hm; reflexivity.
  - cbn [string_forall] in Hpre. apply andb_prop in Hpre as [Hc Hs].
    apply negb_true_iff in Hc. rewrite append_cons.
    cbn [Re.search]. rewrite (match_here_not_open c _ Hc), (IH Hs). reflexivity.
Qed.

Lemma lazy_to_close_sound s m rest :
  Re.lazy_to_close s = Some (m, rest) ->
  s = (m ++ rest)%string /\ (1 <= String.length m)%nat.
Proof.
  revert m. induction s as [| c s IH]; intros m; [discriminate |].
  cbn [Re.lazy_to_close].
  destruct (Ascii.eqb c "]").
  { intros [= <- <-]. split; [reflexivity | simpl; lia]. }
  destruct (Ascii.eqb c Re.newline); [discriminate |].
  destruct (Re.lazy_to_close s) as [[m' rest'] |]; [| discriminate].
  intros [= <- <-]. destruct (IH m' eq_refl) as [-> Hlen].
  split; [reflexivity | simpl; lia].
Qed.

Lemma match_here_sound s m rest :
  Re.match_here s = Some (m, rest) ->
  s = (m ++ rest)%string /\ (3 <= String.length m)%nat.
Proof.
  unfold Re.match_here. destruct s as [| b [| u s]]; try discriminate.
  destruct (Ascii.eqb b "[" && Re.is_upper u); [| discriminate].
  destruct (Re.lazy_to_close s) as [[m' rest'] |] eqn:E; [| discriminate].
  intros [= <- <-]. apply lazy_to_close_sound in E as [-> Hlen].
  split; [reflexivity | simpl; lia].
Qed.

(** A match found by [search] is a part of the text, at least three
    characters long. *)
Lemma search_sound s pre m rest :
  Re.search s = Some (pre, m, rest) ->
  s = (pre ++ m ++ rest)%string /\ (3 <= String.length m)%nat.
Proof.
  revert pre. induction s as [| c s IH]; intros pre.
  - cbn [Re.search]. destruct (Re.match_here "") as [[m' rest'] |] eqn:E;
      [| discriminate].
    intros [= <- <- <-]. now apply match_here_sound in E.
  - cbn [Re.search]. destruct (Re.match_here (String c s)) as [[m' rest'] |] eqn:E.
    + intros [= <- <- <-]. now apply match_here_sound in E.
    + destruct (Re.search s) as [[[pre' m'] rest'] |]; [| discriminate].
      intros [= <- <- <-]. destruct (IH pre' eq_refl) as [-> Hlen].
      split; [reflexivity | exact Hlen].
Qed.

(** The rounds of [split_loop] never run out: any two budgets above the
    length of the text give the same blocks. *)
Lemma split_fuel_enough fuel1 :
  forall fuel2 s,
    (String.length s < fuel1)%nat -> (String.length s < fuel2)%nat ->
    Re.split_loop fuel1 s = Re.split_loop fuel2 s.
Proof.
  induction fuel1 as [| fuel1 IH]; intros fuel2 s H1 H2; [lia |].
  destruct fuel2 as [| fuel2]; [lia |]. cbn [Re.split_loop].
  destruct (Re.search s) as [[[pre m] rest] |] eqn:E; [| reflexivity].
  apply search_sound in E as [-> Hm].
  rewrite !length_append in H1, H2.
  do 2 f_equal. apply IH; lia.
Qed.

(** The blocks of [re.split], put together again, are the text. *)
Lemma split_pieces s : String.concat "" (Re.split s) = s.
Proof.
  unfold Re.split. generalize (S (String.length s)) as fuel.
  intros fuel. revert s. induction fuel as [| fuel IH]; intros s; [reflexivity |].
  cbn [Re.split_loop].
  destruct (Re.search s) as [[[pre m] rest] |] eqn:E; [| reflexivity].
  apply search_sound in E as [-> _].
  specialize (IH rest).
  destruct (Re.split_loop fuel rest) as [| b bs] eqn:Eb.
  - destruct fuel; cbn [Re.split_loop] in Eb; [discriminate |].
    destruct (Re.search rest) as [[[? ?] ?] |]; discriminate.
  - cbn [String.concat]. cbn [String.concat] in IH. rewrite IH.
    now rewrite append_empty_l.
Qed.

(** ** The blocks of a well-formed sequence *)

Lemma wf_free_no_open residues :
  wf_free residues = true ->
  string_forall (fun c => negb (Ascii.eqb c "[")) residues = true.
Proof.
  unfold wf_free. intros [_ H]%andb_prop. revert H.
  apply string_forall_weaken. intros c. unfold is_bracket.
  destruct (Ascii.eqb c "["); [discriminate | reflexivity].
Qed.

Lemma wf_segments_cons seg rest :
  wf_segments (seg :: rest) = true -> wf_segments rest = true.
Proof.
  destruct seg; cbn [wf_segments]; intros H; apply andb_prop in H; tauto.
Qed.

Lemma split_loop_render segs :
  forall pre fuel,
    string_forall (fun c => negb (Ascii.eqb c "[")) pre = true ->
    wf_segments segs = true ->
    (length segs < fuel)%nat ->
    Re.split_loop fuel (pre ++ render segs) = blocks_from pre segs.
Proof.
  induction segs as [| [residues | residues] rest IH]; intros pre fuel Hpre Hwf Hfuel.
  - cbn [render blocks_from]. rewrite append_empty_r.
    destruct fuel; [reflexivity |]. cbn [Re.split_loop].
    now rewrite (search_no_open pre Hpre).
  - cbn [render render_segment blocks_from]. rewrite <- append_assoc.
    cbn [wf_segments] in Hwf.
    apply andb_prop in Hwf as [[Hfree _]%andb_prop Hrest].
    apply IH; [| exact Hrest | simpl in Hfuel; lia].
    rewrite string_forall_append, Hpre. now apply wf_free_no_open.
  - cbn [render render_segment blocks_from].
    cbn [wf_segments] in Hwf. apply andb_prop in Hwf as [Hres Hrest].
    destruct fuel as [| fuel]; [lia |]. cbn [Re.split_loop].
    rewrite (search_bracketed pre residues (render rest) Hpre Hres).
    do 2 f_equal. rewrite <- (append_empty_l (render rest)).
    apply IH; [reflexivity | exact Hrest | simpl in Hfuel; lia].
Qed.

(** [re.split] cuts a well-formed sequence at its bracketed runs. *)
Lemma split_render segs :
  wf_segments segs = true -> Re.split (render segs) = blocks_from "" segs.
Proof.
  intros Hwf. unfold Re.split.
  rewrite (split_fuel_enough _ (S (String.length (render segs) + length segs)))
    by lia.
  rewrite <- (append_empty_l (render segs)) at 2.
  apply split_loop_render; [reflexivity | exact Hwf | lia].
Qed.

(** ** The loop body on the blocks of a well-formed sequence *)

Lemma last_forall p s c :
  string_forall p s = true -> PyStr.last s = Some c -> p c = true.
Proof.
  induction s as [| d s IH]; [discriminate |].
  cbn [string_forall]. intros [Hd Hs]%andb_prop.
  destruct s as [| e s]; [intros [= <-]; exact Hd |].
  intros H. now apply IH.
Qed.

Lemma last_append_char s c : PyStr.last (s ++ String c "") = Some c.
Proof.
  induction s as [| d s IH]; [reflexivity |].
  rewrite append_cons.
  destruct (s ++ String c "")%string eqn:E; [discriminate IH | exact IH].
Qed.

Lemma drop_last_append_char s c : PyStr.drop_last (s ++ String c "") = s.
Proof.
  induction s as [| d s IH]; [reflexivity |].
  rewrite append_cons.
  destruct (s ++ String c "")%string eqn:E.
  - destruct s; discriminate E.
  - change (PyStr.drop_last (String d (String a s0)))
      with (String d (PyStr.drop_last (String a s0))).
    now rewrite IH.
Qed.

(** A free run is a linker block. *)
Lemma bead_of_free_run hr sr density hydration masses residues :
  wf_free residues = true ->
  bead_of_block hr sr density hydration masses residues
  = inr (hr, sr, Z.of_nat (String.length residues)).
Proof.
  unfold wf_free. intros [Hlen Hchars]%andb_prop.
  assert (Hfirst : PyStr.holds "[" (PyStr.first residues) = false).
  { destruct residues as [| c rest]; [reflexivity |].
    cbn [string_forall] in Hchars. apply andb_prop in Hchars as [Hc _].
    unfold is_bracket in Hc. cbn [PyStr.first String.get PyStr.holds].
    destruct (Ascii.eqb c "["); [discriminate | reflexivity]. }
  assert (Hlast : PyStr.holds "]" (PyStr.last residues) = false).
  { destruct (PyStr.last residues) as [c |] eqn:E; [| reflexivity].
    pose proof (last_forall _ _ _ Hchars E) as Hc. unfold is_bracket in Hc.
    cbn [PyStr.holds]. destruct (Ascii.eqb c "]"); [| reflexivity].
    rewrite orb_true_r in Hc. discriminate. }
  unfold bead_of_block, is_domain_block, is_linker_block.
  rewrite Hfirst, Hlast, Hlen. rewrite andb_false_r. reflexivity.
Qed.

Lemma bracketed_run_is_domain_block residues :
  is_domain_block ("[" ++ residues ++ "]") = true
  /\ PyStr.interior ("[" ++ residues ++ "]") = residues.
Proof.
  rewrite append_cons, append_empty_l. split.
  - unfold is_domain_block.
    cbn [String.length PyStr.first String.get PyStr.holds].
    rewrite length_append. cbn [String.length].
    replace (2 <=? S (String.length residues + 1))%nat with true
      by (symmetry; apply Nat.leb_le; lia).
    change (Ascii.eqb "[" "[") with true. cbn [andb].
    pose proof (last_append_char residues "]") as Hl.
    destruct (residues ++ "]")%string eqn:E.
    + destruct residues; discriminate E.
    + cbn [PyStr.last]. cbn [PyStr.last] in Hl.
      destruct s; [injection Hl as ->; reflexivity |].
      rewrite Hl. reflexivity.
  - cbn [PyStr.interior]. apply drop_last_append_char.
Qed.

(** The empty block passes neither test. *)
Lemma bead_of_empty_block hr sr density hydration masses :
  bead_of_block hr sr density hydration masses ""
  = inl (ValueError "Malformed seqence passed: ").
Proof. reflexivity. Qed.

Lemma float_div_nonzero x d : d <> 0 -> float_div x d = inr (x / d).
Proof. intros H. unfold float_div. now destruct (Req_dec_T d 0). Qed.

Lemma float_div_zero x : float_div x 0 = inl ZeroDivisionError.
Proof. unfold float_div. now destruct (Req_dec_T 0 0). Qed.

Lemma float_div_inr x d v : float_div x d = inr v -> d <> 0 /\ v = x / d.
Proof.
  unfold float_div. destruct (Req_dec_T d 0); [discriminate |].
  intros [= <-]. now split.
Qed.

Lemma sum_masses_known masses residues :
  all_known masses residues = true ->
  forall acc, exists mass, sum_masses masses residues acc = inr mass.
Proof.
  unfold all_known. induction residues as [| aa rest IH]; intros H acc.
  - now exists acc.
  - cbn [string_forall] in H. apply andb_prop in H as [Haa Hrest].
    cbn [sum_masses]. destruct (masses !! aa) as [m |]; [| discriminate].
    apply (IH Hrest).
Qed.

Section ParserFacts.

Variables (hr sr density hydration : R).
Variable masses : gmap ascii R.

Local Abbreviation body := (bead_of_block hr sr density hydration masses).
Local Abbreviation loop := (for_blocks hr sr density hydration masses).
Local Abbreviation matches := (bead_matches hr sr density hydration masses).

Lemma for_blocks_cons block rest acc :
  loop (block :: rest) acc
  = rbind (body block) (fun g => loop rest (acc ++ [g])%list).
Proof. reflexivity. Qed.

(** The bead of a bracketed run, when the loop body returns one. *)
Lemma bead_of_bracketed_run residues g :
  body ("[" ++ residues ++ "]") = inr g -> matches (Bracketed residues) g.
Proof.
  destruct (bracketed_run_is_domain_block residues) as [Hdom Hint].
  unfold bead_of_block. rewrite Hdom, Hint.
  destruct (sum_masses masses residues 0) as [e | mass] eqn:Hmass; [discriminate |].
  cbn [rbind].
  destruct (float_div _ density) as [e | volume] eqn:Hdiv; [discriminate |].
  cbn [rbind]. intros [= <-].
  apply float_div_inr in Hdiv as [_ ->].
  exists mass. split; [exact Hmass | reflexivity].
Qed.

(** A bracketed run of known residues gets its bead. *)
Lemma bead_of_known_run residues :
  all_known masses residues = true -> density <> 0 ->
  exists g, body ("[" ++ residues ++ "]") = inr g.
Proof.
  intros Hknown Hd.
  destruct (bracketed_run_is_domain_block residues) as [Hdom Hint].
  destruct (sum_masses_known masses residues Hknown 0) as [mass Hmass].
  unfold bead_of_block. rewrite Hdom, Hint, Hmass. cbn [rbind].
  rewrite (float_div_nonzero _ _ Hd). cbn [rbind]. eexists. reflexivity.
Qed.

(** When the loop returns on the blocks of well-formed segments, the
    beads it has added are those of the segments, one after the other.
    [after_free] tells whether the text [pre] of a free run is
    pending. *)
Lemma for_blocks_segments segs :
  forall (after_free : bool) pre acc groups,
    wf_segments segs = true ->
    (if after_free then wf_free pre = true /\ starts_free segs = false
     else pre = "") ->
    loop (blocks_from pre segs) acc = inr groups ->
    exists new,
      groups
      = (acc ++ (if after_free then [(hr, sr, Z.of_nat (String.length pre))] else [])
             ++ new)%list
      /\ Forall2 matches segs new.
Proof.
  induction segs as [| [residues | residues] rest IH];
    intros after_free pre acc groups Hwf Hpre; cbn [blocks_from].
  - destruct after_free.
    + destruct Hpre as [Hpre _]. rewrite for_blocks_cons.
      rewrite (bead_of_free_run _ _ _ _ _ pre Hpre). cbn [rbind for_blocks].
      intros [= <-]. exists []. split; [now rewrite app_nil_r | constructor].
    + subst pre. rewrite for_blocks_cons, bead_of_empty_block. discriminate.
  - cbn [wf_segments] in Hwf.
    apply andb_prop in Hwf as [[Hfree Hnext]%andb_prop Hrest].
    apply negb_true_iff in Hnext.
    destruct after_free; [destruct Hpre as [_ Hpre]; discriminate Hpre |].
    subst pre. rewrite append_empty_l. intros Hloop.
    destruct (IH true residues acc groups Hrest (conj Hfree Hnext) Hloop)
      as (new & -> & Hnew).
    eexists. split; [reflexivity |]. constructor; [reflexivity | exact Hnew].
  - cbn [wf_segments] in Hwf. apply andb_prop in Hwf as [Hres Hrest].
    destruct after_free.
    + destruct Hpre as [Hpre _]. rewrite for_blocks_cons.
      rewrite (bead_of_free_run _ _ _ _ _ pre Hpre). cbn [rbind].
      rewrite for_blocks_cons.
      destruct (body ("[" ++ residues ++ "]")) as [e | g] eqn:Hg; [discriminate |].
      cbn [rbind]. intros Hloop.
      destruct (IH false "" _ groups Hrest eq_refl Hloop) as (new & -> & Hnew).
      exists (g :: new). split.
      * cbn [app]. now rewrite <- !app_assoc.
      * constructor; [now apply bead_of_bracketed_run | exact Hnew].
    + subst pre. rewrite for_blocks_cons, bead_of_empty_block. discriminate.
Qed.

(** On the blocks of flanked segments with known residues the loop
    returns. *)
Lemma for_blocks_flanked segs :
  forall (after_free : bool) pre acc,
    wf_segments segs = true ->
    flanked after_free segs = true ->
    forallb (bracketed_known masses) segs = true ->
    density <> 0 ->
    (if after_free then wf_free pre = true else pre = "") ->
    exists groups, loop (blocks_from pre segs) acc = inr groups.
Proof.
  induction segs as [| [residues | residues] rest IH];
    intros after_free pre acc Hwf Hfl Hknown Hd Hpre;
    cbn [blocks_from flanked forallb bracketed_known] in *.
  - subst after_free. rewrite for_blocks_cons.
    rewrite (bead_of_free_run _ _ _ _ _ pre Hpre). cbn [rbind for_blocks].
    eexists. reflexivity.
  - apply andb_prop in Hfl as [Hflag Hfl]. apply negb_true_iff in Hflag.
    subst after_free pre. rewrite append_empty_l.
    cbn [wf_segments] in Hwf.
    apply andb_prop in Hwf as [[Hfree _]%andb_prop Hrest].
    now apply (IH true).
  - apply andb_prop in Hfl as [-> Hfl]. apply andb_prop in Hknown as [Hres Hknown].
    cbn [wf_segments] in Hwf. apply andb_prop in Hwf as [_ Hrest].
    rewrite for_blocks_cons.
    rewrite (bead_of_free_run _ _ _ _ _ pre Hpre). cbn [rbind].
    rewrite for_blocks_cons.
    destruct (bead_of_known_run residues Hres Hd) as [g ->]. cbn [rbind].
    now apply (IH false).
Qed.

Lemma matches_counts segs groups :
  Forall2 matches segs groups ->
  map bead_n groups = map segment_count segs
  /\ total_count groups = (free_residues segs + bracketed_segments segs)%Z.
Proof.
  induction 1 as [| seg g segs groups Hg _ [IHmap IHsum]]; [split; reflexivity |].
  cbn [map total_count foldr free_residues bracketed_segments].
  unfold total_count, free_residues, bracketed_segments in IHsum.
  destruct seg as [residues | residues]; cbn [bead_matches segment_count] in *.
  - subst g. cbn [bead_n snd]. rewrite IHmap. split; [reflexivity | lia].
  - destruct Hg as (mass & _ & ->). cbn [bead_n snd]. rewrite IHmap.
    split; [reflexivity | lia].
Qed.

(** The parser returns on every sequence in which free and bracketed
    segments alternate between two free segments, when it knows the
    residues of the bracketed ones and the density is not zero. *)
Lemma parsing_flanked_returns segs :
  wf_segments segs = true ->
  flanked false segs = true ->
  forallb (bracketed_known masses) segs = true ->
  density <> 0 ->
  exists groups,
    _bead_description_compact hr sr density hydration masses (render segs)
    = inr groups.
Proof.
  intros Hwf Hfl Hknown Hd. unfold _bead_description_compact.
  rewrite (split_render segs Hwf).
  now apply (for_blocks_flanked segs false "" []).
Qed.

(** ** Which exception the parser raises *)

(** The loop raises what the body raises on the first block that it
    does not accept. *)
Lemma for_blocks_inl blocks :
  forall acc e,
    loop blocks acc = inl e
    <-> exists before block after,
          blocks = (before ++ block :: after)%list
          /\ Forall (fun b => exists g, body b = inr g) before
          /\ body block = inl e.
Proof.
  induction blocks as [| block rest IH]; intros acc e.
  - cbn [for_blocks]. split; [discriminate |].
    intros (before & b & after & E & _). now destruct before.
  - rewrite for_blocks_cons. destruct (body block) as [e' | g] eqn:Hb; cbn [rbind].
    + split.
      * intros [= ->]. exists [], block, rest. repeat split; [constructor | exact Hb].
      * intros (before & b & after & E & Hbefore & Hraise).
        destruct before as [| b0 before]; cbn [app] in E; simplify_eq.
        -- congruence.
        -- apply Forall_cons in Hbefore as [[g Hg] _]. congruence.
    + rewrite IH. split.
      * intros (before & b & after & -> & Hbefore & Hraise).
        exists (block :: before), b, after.
        repeat split; [constructor; [now exists g | exact Hbefore] | exact Hraise].
      * intros (before & b & after & E & Hbefore & Hraise).
        destruct before as [| b0 before]; cbn [app] in E; simplify_eq.
        -- congruence.
        -- apply Forall_cons in Hbefore as [_ Hbefore].
           exists before, b, after. repeat split; assumption.
Qed.

Lemma sum_masses_inl residues :
  forall acc e,
    sum_masses masses residues acc = inl e ->
    exists c, e = KeyError c /\ occurs c residues /\ masses !! c = None.
Proof.
  induction residues as [| aa rest IH]; intros acc e; [discriminate |].
  cbn [sum_masses occurs]. destruct (masses !! aa) as [m |] eqn:Haa.
  - intros H. destruct (IH _ _ H) as (c & -> & Hc & Hnone).
    exists c. repeat split; [now right | exact Hnone].
  - intros [= <-]. exists aa. repeat split; [now left | exact Haa].
Qed.



(** A block that is not bracket-delimited is handled without the mass
    table. *)
Lemma linker_block_ignores_masses (masses' : gmap ascii R) block :
  is_domain_block block = false ->
  body block = bead_of_block hr sr density hydration masses' block.
Proof. intros Hdom. unfold bead_of_block. now rewrite Hdom. Qed.


End ParserFacts.

(** ** The parser on particular inputs *)

Lemma default_mass_A : default_aminoacid_masses !! "A"%char = Some 71.08.
Proof. reflexivity. Qed.

Lemma default_mass_B : default_aminoacid_masses !! "B"%char = Some 0.
Proof. reflexivity. Qed.

Lemma default_mass_lowercase_a : default_aminoacid_masses !! "a"%char = None.
Proof. reflexivity. Qed.

Lemma float_pow_positive x y : 0 < x -> float_pow x y = Rpower x y.
Proof. intros H. unfold float_pow. destruct (Req_dec_T x 0); [lra | reflexivity]. Qed.

Lemma float_pow_zero y : float_pow 0 y = 0.
Proof. unfold float_pow. now destruct (Req_dec_T 0 0). Qed.

(** C2 (the code at the input of the claim).  [re.split] puts an empty
    string before a match at the very start of the sequence and after a
    match at its very end; the loop reaches the empty string first, and
    an empty block passes neither test, so the parser raises
    [ValueError] and returns no bead group. *)
Theorem leading_domain_is_rejected :
  Re.split "[AAAA]" = [""; "[AAAA]"; ""]
  /\ _bead_description_compact default_hydrodynamic_radius default_steric_radius
       default_effective_density default_hydration_thickness
       default_aminoacid_masses "[AAAA]"
     = inl (ValueError "Malformed seqence passed: ").
Proof. split; reflexivity. Qed.

(** Between two linker residues the same domain is parsed, and its
    radius is the one the formula gives for four alanines. *)
Lemma flanked_domain_radius :
  let r := Rpower (4 * 71.08 * 3 / (4 * PI) / 0.52) (1 / 3) + 3.0 in
  _bead_description_compact default_hydrodynamic_radius default_steric_radius
      default_effective_density default_hydration_thickness
      default_aminoacid_masses "G[AAAA]G"
  = inr [(default_hydrodynamic_radius, default_steric_radius, 1%Z);
         (r, r, 1%Z);
         (default_hydrodynamic_radius, default_steric_radius, 1%Z)].
Proof.
  intros r. unfold _bead_description_compact.
  change (Re.split "G[AAAA]G") with ["G"; "[AAAA]"; "G"].
  cbn [for_blocks].
  change (bead_of_block _ _ _ _ _ "G")
    with (@inr pyerror bead
            (default_hydrodynamic_radius, default_steric_radius, 1%Z)).
  cbn [rbind app].
  assert (Hb : bead_of_block default_hydrodynamic_radius default_steric_radius
                 default_effective_density default_hydration_thickness
                 default_aminoacid_masses "[AAAA]" = inr (r, r, 1%Z)).
  { unfold bead_of_block.
    change (is_domain_block "[AAAA]") with true. cbv iota.
    change (PyStr.interior "[AAAA]") with "AAAA".
    cbn [sum_masses]. rewrite !default_mass_A. cbn [rbind].
    assert (Hpos : 0 < PI) by apply PI_RGT_0.
    rewrite float_div_nonzero by (unfold default_effective_density; lra).
    cbn [rbind]. unfold default_effective_density, default_hydration_thickness.
    rewrite float_pow_positive.
    2:{ apply Rdiv_lt_0_compat; [| lra].
        apply Rmult_lt_0_compat; [lra |].
        apply Rdiv_lt_0_compat; lra. }
    subst r. repeat f_equal; field; lra. }
  rewrite Hb. reflexivity.
Qed.


(** ** The radius of a domain bead *)

(** The bead of a bracketed block, once the masses of its residues are
    found and the density is not zero. *)
Lemma domain_bead_radius hr sr density hydration masses block mass :
  is_domain_block block = true ->
  sum_masses masses (PyStr.interior block) 0 = inr mass ->
  density <> 0 ->
  bead_of_block hr sr density hydration masses block
  = inr (excluded_volume_radius mass density + hydration,
         excluded_volume_radius mass density + hydration, 1%Z).
Proof.
  intros Hdom Hmass Hd. unfold bead_of_block.
  rewrite Hdom, Hmass. cbn [rbind].
  rewrite float_div_nonzero by assumption. reflexivity.
Qed.

(** The domain ["[B]"] weighs nothing under the default table, and so
    its excluded-volume radius is 0 at every density. *)
Lemma zero_mass_domain hr sr density hydration :
  density <> 0 ->
  bead_of_block hr sr density hydration default_aminoacid_masses "[B]"
  = inr (0 + hydration, 0 + hydration, 1%Z).
Proof.
  intros Hd.
  rewrite (domain_bead_radius _ _ _ _ _ _ (0 + 0)); [| reflexivity | reflexivity | assumption].
  unfold excluded_volume_radius.
  replace ((0 + 0) * (3 / (4 * PI)) / density) with 0.
  - now rewrite float_pow_zero.
  - unfold Rdiv. ring.
Qed.




(** ** The reduction does not depend on the order of the ensemble *)









(** ** The reduction, entry by entry *)

Lemma tabulate_nth {A : Type} (d : A) (l : list A) :
  l = tabulate (length l) (fun i => nth i l d).
Proof.
  unfold tabulate. induction l as [| x l IH]; [reflexivity |].
  cbn [length seq map nth]. f_equal.
  rewrite <- seq_shift, map_map. exact IH.
Qed.

Lemma tabulate_ext {A : Type} (n : nat) (f g : nat -> A) :
  (forall i, (i < n)%nat -> f i = g i) -> tabulate n f = tabulate n g.
Proof.
  intros H. unfold tabulate. apply map_ext_in.
  intros i Hi. apply in_seq in Hi. apply H. lia.
Qed.

Lemma zip_with_tabulate {A B C : Type} (h : A -> B -> C) n f g :
  zip_with h (tabulate n f) (tabulate n g) = tabulate n (fun i => h (f i) (g i)).
Proof.
  unfold tabulate. induction (seq 0 n) as [| i l IH]; simpl; [reflexivity |].
  now rewrite IH.
Qed.

Lemma map_tabulate {A B : Type} (h : A -> B) n f :
  map h (tabulate n f) = tabulate n (fun i => h (f i)).
Proof. unfold tabulate. now rewrite map_map. Qed.

(** A tensor of the right shape is the table of its entries. *)
Lemma has_shape_tabulate N t :
  has_shape N t -> t = tabulate_tensor N (entry t).
Proof.
  intros [Hlen Hrows]. unfold tabulate_tensor, entry.
  unfold tensor, matrix in *.
  rewrite (tabulate_nth [] t) at 1. rewrite Hlen.
  apply tabulate_ext. intros i Hi.
  rewrite Forall_forall in Hrows.
  destruct (Hrows (nth i t [])) as [Hlen' Hblocks].
  { apply list_elem_of_In, nth_In. now rewrite Hlen. }
  rewrite (tabulate_nth [] (nth i t [])) at 1. rewrite Hlen'.
  apply tabulate_ext. intros j Hj.
  rewrite Forall_forall in Hblocks.
  destruct (Hblocks (nth j (nth i t []) [])) as [Hlen3 Hr].
  { apply list_elem_of_In, nth_In. now rewrite Hlen'. }
  rewrite (tabulate_nth [] (nth j (nth i t []) [])) at 1. rewrite Hlen3.
  apply tabulate_ext. intros k Hk.
  rewrite Forall_forall in Hr.
  assert (Hlen3' : length (nth k (nth j (nth i t []) []) []) = 3%nat).
  { apply Hr, list_elem_of_In, nth_In. now rewrite Hlen3. }
  rewrite (tabulate_nth 0 (nth k (nth j (nth i t []) []) [])) at 1.
  now rewrite Hlen3'.
Qed.

Lemma tabulate_tensor_ext N f g :
  (forall i j k l, f i j k l = g i j k l) ->
  tabulate_tensor N f = tabulate_tensor N g.
Proof.
  intros H. unfold tabulate_tensor.
  repeat (apply tabulate_ext; intros). apply H.
Qed.

Lemma add_tabulate N f g :
  Np.add (tabulate_tensor N f) (tabulate_tensor N g)
  = tabulate_tensor N (fun i j k l => f i j k l + g i j k l).
Proof.
  unfold Np.add, Np.add_matrix, tabulate_tensor.
  rewrite zip_with_tabulate. apply tabulate_ext; intros i _.
  rewrite zip_with_tabulate. apply tabulate_ext; intros j _.
  rewrite zip_with_tabulate. apply tabulate_ext; intros k _.
  now rewrite zip_with_tabulate.
Qed.

Lemma divide_tabulate N f c :
  Np.divide (tabulate_tensor N f) c
  = tabulate_tensor N (fun i j k l => f i j k l / c).
Proof.
  unfold Np.divide, tabulate_tensor.
  rewrite map_tabulate. apply tabulate_ext; intros i _.
  rewrite map_tabulate. apply tabulate_ext; intros j _.
  rewrite map_tabulate. apply tabulate_ext; intros k _.
  now rewrite map_tabulate.
Qed.

Lemma trace_tabulate N f :
  Np.trace (tabulate_tensor N f)
  = tabulate N (fun i => tabulate N (fun j =>
      f i j 0%nat 0%nat + (f i j 1%nat 1%nat + (f i j 2%nat 2%nat + 0)))).
Proof.
  unfold Np.trace, tabulate_tensor.
  rewrite map_tabulate. apply tabulate_ext; intros i _.
  rewrite map_tabulate. apply tabulate_ext; intros j _.
  reflexivity.
Qed.

Lemma fold_add_tabulate N rest :
  Forall (has_shape N) rest ->
  forall f,
    fold_left Np.add rest (tabulate_tensor N f)
    = tabulate_tensor N (fun i j k l =>
        fold_left Rplus (map (fun t => entry t i j k l) rest) (f i j k l)).
Proof.
  induction 1 as [| t rest Ht _ IH]; intros f; [reflexivity |].
  cbn [fold_left map].
  rewrite (has_shape_tabulate N t Ht) at 1.
  rewrite add_tabulate. apply IH.
Qed.

Lemma fold_left_Rplus l a : fold_left Rplus l a = a + Np.sum_list l.
Proof.
  revert a. induction l as [| x l IH]; intros a; simpl; [lra |].
  rewrite IH. lra.
Qed.

Lemma sum_list_app l k : Np.sum_list (l ++ k) = Np.sum_list l + Np.sum_list k.
Proof. induction l as [| x l IH]; simpl; [lra |]. rewrite IH. lra. Qed.

Lemma sum_list_concat (m : matrix) :
  Np.sum_list (concat m) = Np.sum_list (map Np.sum_list m).
Proof.
  induction m as [| row m IH]; [reflexivity |].
  cbn [concat map]. rewrite sum_list_app, IH. reflexivity.
Qed.

(** Steps 1 and 2: the trace of the mean, as [numpy] computes it on the
    stacked array, is the matrix of the traces of the blocks of the mean
    tensor. *)
Lemma trace_of_mean N first rest :
  Forall (has_shape N) (first :: rest) ->
  Np.trace (Np.mean first rest) = Spec.grand_trace N (first :: rest).
Proof.
  intros Hshape. apply Forall_cons in Hshape as [Hfirst Hrest].
  unfold Np.mean.
  rewrite (has_shape_tabulate N first Hfirst) at 1.
  rewrite (fold_add_tabulate N rest Hrest), divide_tabulate, trace_tabulate.
  unfold Spec.grand_trace, Spec.grand_mu.
  apply tabulate_ext; intros i _. apply tabulate_ext; intros j _.
  cbn [map Np.sum_list foldr length].
  rewrite !fold_left_Rplus. fold (Np.sum_list).
  unfold Rdiv. unfold Np.sum_list. ring.
Qed.

(** C1.  On an ensemble of [M >= 1] tensors of shape [(N, N, 3, 3)] the
    reduction of the program is the one of the design document, in its
    order: the mean of the tensors entry by entry, the traces of the 3x3
    blocks of that mean, the inverse of the resulting [N x N] matrix, the
    sum of all entries of the inverse, the division by [2 * pi]; if the
    matrix of traces of the mean has no inverse, [LinAlgError]. *)
Theorem effective_radius_is_reduction_of_mean
    (linalg_inv : matrix -> option matrix) (N : nat) (grand_grand_mu : list tensor) :
  (1 <= length grand_grand_mu)%nat ->
  Forall (has_shape N) grand_grand_mu ->
  effective_radius linalg_inv grand_grand_mu
  = Spec.effective_rh linalg_inv N grand_grand_mu.
Proof.
  intros HM Hshape. destruct grand_grand_mu as [| first rest]; [simpl in HM; lia |].
  unfold effective_radius, Spec.effective_rh.
  rewrite (trace_of_mean N first rest Hshape).
  destruct (linalg_inv _) as [inv_mat |]; [| reflexivity].
  unfold Np.sum. now rewrite sum_list_concat.
Qed.

Lemma effective_radius_is_reduction_of_mean_witness :
  effective_radius (fun m => Some m) [one_bead_tensor 1; one_bead_tensor 3]
  = Spec.effective_rh (fun m => Some m) 1 [one_bead_tensor 1; one_bead_tensor 3].
Proof.
  apply effective_radius_is_reduction_of_mean.
  - simpl. lia.
  - repeat constructor.
Defined.


(** ** The whole computation on particular inputs *)

Section PipelineFacts.

Context {World : Type}.
Variable generateChain : list R -> World -> conformation * World.
Variable muTT : conformation -> list R -> tensor.
Variable random_choice : nat -> nat -> World -> list nat * World.
Variable linalg_inv : matrix -> option matrix.

Local Abbreviation run_bootstrap_loop :=
  (bootstrap_loop World random_choice linalg_inv).
Local Abbreviation run_protein_hydrodynamic_radius :=
  (protein_hydrodynamic_radius World generateChain muTT random_choice linalg_inv).

(** The bootstrap loop only adds to the record of calls. *)
Lemma bootstrap_loop_calls rounds grand_grand_mu acc s :
  exists later,
    calls World (snd (run_bootstrap_loop rounds grand_grand_mu acc s))
    = (calls World s ++ later)%list.
Proof.
  revert acc s. induction rounds as [| n IH]; intros acc s; simpl.
  - exists []. now rewrite app_nil_r.
  - unfold bind at 1. unfold call_random_choice at 1.
    destruct (random_choice _ _ _) as [indices w1].
    set (s1 := {| world := w1; calls := _ |}).
    unfold bind at 1. unfold lift at 1.
    destruct (take_indices _ _) as [e | ts]; simpl.
    { eexists. reflexivity. }
    unfold bind at 1. unfold lift at 1.
    destruct (effective_radius _ _) as [e | x]; simpl.
    { eexists. reflexivity. }
    destruct (IH (acc ++ [x])%list s1) as [later Hlater].
    rewrite Hlater. subst s1. simpl. rewrite <- app_assoc.
    eexists. reflexivity.
Qed.

(** C3 (the code at the input of the claim).  The sequence ["AA[BB"]
    holds no match of the pattern, so [re.split] returns it whole; the
    block neither starts with ["["] nor ends with ["]"], so it is taken
    for a linker of five residues: the parser returns one group of count
    5 and raises nothing, and the computation goes on to call the chain
    generator [ensemble_size = 30] times on five linker radii. *)
Theorem unmatched_inner_bracket_is_accepted (s : machine World) :
  _bead_description_compact default_hydrodynamic_radius default_steric_radius
      default_effective_density default_hydration_thickness
      default_aminoacid_masses "AA[BB"
    = inr [(default_hydrodynamic_radius, default_steric_radius, 5%Z)]
  /\ exists later,
      calls World
        (snd (run_protein_hydrodynamic_radius "AA[BB"
                default_steric_radius default_hydrodynamic_radius
                default_effective_density default_hydration_thickness
                default_ensemble_size default_bootstrap_rounds
                default_aminoacid_masses s))
      = (calls World s
         ++ replicate 30 (GenerateChain (replicate 5 default_steric_radius))
         ++ later)%list.
Proof.
  split; [reflexivity |].
  unfold protein_hydrodynamic_radius.
  change (_bead_description_compact _ _ _ _ _ "AA[BB")
    with (@inr pyerror _ [(default_hydrodynamic_radius, default_steric_radius, 5%Z)]).
  unfold bind at 1. unfold lift at 1.
  unfold bind at 1. rewrite ensemble_loop_run.
  change (Z.to_nat default_ensemble_size) with 30%nat.
  change (_bead_steric_radii _) with (replicate 5 default_steric_radius).
  set (s1 := {| world := _; calls := _ |}).
  unfold bind at 1. unfold lift at 1.
  destruct (effective_radius _ _) as [e | rh].
  { exists []. subst s1. cbn [snd calls]. now rewrite app_nil_r. }
  unfold default_bootstrap_rounds.
  unfold bind at 1.
  destruct (bootstrap_loop_calls (Z.to_nat 10) 
              (map (fun locations => muTT locations
                      (_bead_hydrodynamic_radii
                         [(default_hydrodynamic_radius, default_steric_radius, 5%Z)]))
                   ([] ++ fst (chains generateChain 30
                                 (replicate 5 default_steric_radius) (world World s))))
              [] s1) as [later Hlater].
  destruct (run_bootstrap_loop _ _ _ _) as [[e | l] s2];
    cbn [snd ret] in *; rewrite Hlater; subst s1; cbn [calls];
    rewrite <- app_assoc; eexists; reflexivity.
Qed.

(** With [bootstrap_rounds = None] the value under ["protein_rh_sigma"]
    is [None]. *)
Lemma disabled_bootstrap_sigma_is_none
    sequence sr hr density hydration n masses s res s' :
  run_protein_hydrodynamic_radius sequence sr hr density hydration n None masses s
    = (inr res, s') ->
  protein_rh_sigma res = None.
Proof.
  unfold protein_hydrodynamic_radius. intros H.
  apply bind_inr in H as (bdc & s1 & _ & H).
  apply bind_inr in H as (ens & s2 & _ & H).
  apply bind_inr in H as (rh & s3 & _ & H).
  unfold ret in H. injection H as <- _. reflexivity.
Qed.

(** C4 (the code at [bootstrap_rounds = 0]).  The test before the
    bootstrap loop is [bootstrap_rounds != None], which [0] passes: the
    loop runs no round and [np.std] of the empty list, [nan], is
    returned under ["protein_rh_sigma"]. *)
Theorem zero_rounds_sigma_is_nan
    sequence sr hr density hydration n masses s res s' :
  protein_hydrodynamic_radius World generateChain muTT random_choice linalg_inv
      sequence sr hr density hydration n (Some 0%Z) masses s
    = (inr res, s') ->
  protein_rh_sigma res = Some NaN.
Proof.
  unfold protein_hydrodynamic_radius. intros H.
  apply bind_inr in H as (bdc & s1 & _ & H).
  apply bind_inr in H as (ens & s2 & _ & H).
  apply bind_inr in H as (rh & s3 & _ & H).
  apply bind_inr in H as (l & s4 & Hloop & H).
  cbn [Z.to_nat bootstrap_loop] in Hloop. unfold ret in Hloop, H.
  injection Hloop as <- _. injection H as <- _. reflexivity.
Qed.

(** What a successful run has computed. *)
Lemma protein_hydrodynamic_radius_inr
    sequence sr hr density hydration n bootstrap_rounds masses s res s' :
  run_protein_hydrodynamic_radius sequence sr hr density hydration n
      bootstrap_rounds masses s
    = (inr res, s') ->
  exists bdc,
    _bead_description_compact hr sr density hydration masses sequence = inr bdc
    /\ let ensemble :=
         chains generateChain (Z.to_nat n) (_bead_steric_radii bdc) (world World s) in
       let grand_grand_mu :=
         map (fun locations => muTT locations (_bead_hydrodynamic_radii bdc))
             (fst ensemble) in
       let s2 :=
         {| world := snd ensemble;
            calls := (calls World s
                      ++ replicate (Z.to_nat n)
                           (GenerateChain (_bead_steric_radii bdc)))%list |} in
       effective_radius linalg_inv grand_grand_mu = inr (protein_rh res)
       /\ match bootstrap_rounds with
          | None => protein_rh_sigma res = None /\ s' = s2
          | Some rounds =>
              exists effective_rh_list,
                run_bootstrap_loop (Z.to_nat rounds) grand_grand_mu [] s2
                  = (inr effective_rh_list, s')
                /\ protein_rh_sigma res = Some (Np.std effective_rh_list)
          end.
Proof.
  unfold protein_hydrodynamic_radius. intros H.
  apply bind_inr in H as (bdc & s1 & Hparse & H).
  apply lift_inr in Hparse as [Hparse ->].
  exists bdc. split; [exact Hparse |]. cbn zeta.
  apply bind_inr in H as (ens & s2 & Hens & H).
  rewrite ensemble_loop_run in Hens. injection Hens as <- <-.
  apply bind_inr in H as (rh & s3 & Hrh & H).
  apply lift_inr in Hrh as [Hrh ->]. cbn [app] in *.
  destruct bootstrap_rounds as [rounds |].
  - apply bind_inr in H as (l & s4 & Hloop & H).
    unfold ret in H. injection H as <- <-.
    split; [exact Hrh |]. exists l. split; [exact Hloop | reflexivity].
  - unfold ret in H. injection H as <- <-.
    split; [exact Hrh |]. split; reflexivity.
Qed.

(** ** The bootstrap loop *)

Lemma draws_length rounds m w :
  length (fst (draws random_choice rounds m w)) = rounds.
Proof.
  revert w. induction rounds as [| r IH]; intros w; simpl; [reflexivity |].
  destruct (random_choice m m w) as [indices w1].
  specialize (IH w1). destruct (draws random_choice r m w1) as [rest w2].
  simpl in *. now rewrite IH.
Qed.

Lemma take_indices_inr grand_grand_mu indices resampled :
  take_indices grand_grand_mu indices = inr resampled ->
  Forall2 (fun i t => grand_grand_mu !! i = Some t) indices resampled.
Proof.
  revert resampled. induction indices as [| i rest IH]; intros resampled; simpl.
  - intros [= <-]. constructor.
  - destruct (grand_grand_mu !! i) as [t |] eqn:Ht; [| discriminate].
    destruct (take_indices grand_grand_mu rest) as [e | ts]; [discriminate |].
    intros [= <-]. constructor; [exact Ht | now apply IH].
Qed.

(** Indices below the size of the ensemble never raise [IndexError]. *)
Lemma take_indices_in_range grand_grand_mu indices :
  Forall (fun i => (i < length grand_grand_mu)%nat) indices ->
  exists resampled, take_indices grand_grand_mu indices = inr resampled.
Proof.
  induction 1 as [| i rest Hi _ [ts IH]]; simpl.
  - now exists [].
  - destruct (lookup_lt_is_Some_2 grand_grand_mu i Hi) as [t ->].
    rewrite IH. now exists (t :: ts).
Qed.

(** Every round of a successful loop has drawn one list of indices,
    gathered the tensors at these indices and reduced them; the radii
    are appended in the order of the rounds. *)
Lemma bootstrap_loop_inr rounds grand_grand_mu acc s l s' :
  run_bootstrap_loop rounds grand_grand_mu acc s = (inr l, s') ->
  exists radii,
    l = (acc ++ radii)%list
    /\ Forall2 (fun indices b_effective_rh =>
          exists resampled,
            take_indices grand_grand_mu indices = inr resampled
            /\ effective_radius linalg_inv resampled = inr b_effective_rh)
        (fst (draws random_choice rounds (length grand_grand_mu) (world World s)))
        radii.
Proof.
  revert acc s. induction rounds as [| r IH]; intros acc s; cbn [bootstrap_loop draws].
  - unfold ret. intros [= <- <-]. exists []. split; [now rewrite app_nil_r | constructor].
  - intros H.
    apply bind_inr in H as (indices & s1 & Hchoice & H).
    unfold call_random_choice in Hchoice.
    destruct (random_choice _ _ _) as [indices' w1]. injection Hchoice as -> <-.
    apply bind_inr in H as (resampled & s2 & Htake & H).
    apply lift_inr in Htake as [Htake ->].
    apply bind_inr in H as (x & s3 & Hx & H).
    apply lift_inr in Hx as [Hx ->].
    apply IH in H as (radii & -> & Hradii). cbn [world] in Hradii.
    destruct (draws random_choice r _ w1) as [rest w2]. cbn [fst] in *.
    exists (x :: radii). split; [now rewrite <- app_assoc |].
    constructor; [| exact Hradii]. exists resampled. now split.
Qed.

(** Conversely, the loop returns when the reduction of every resampled
    ensemble does. *)
Lemma bootstrap_loop_returns rounds grand_grand_mu :
  forall acc s radii,
    Forall2 (fun indices b_effective_rh =>
          exists resampled,
            take_indices grand_grand_mu indices = inr resampled
            /\ effective_radius linalg_inv resampled = inr b_effective_rh)
        (fst (draws random_choice rounds (length grand_grand_mu) (world World s)))
        radii ->
    exists s',
      run_bootstrap_loop rounds grand_grand_mu acc s = (inr (acc ++ radii)%list, s').
Proof.
  induction rounds as [| r IH]; intros acc s radii; cbn [bootstrap_loop draws].
  - intros H. apply Forall2_nil_inv_l in H as ->.
    exists s. unfold ret. now rewrite app_nil_r.
  - unfold bind at 1. unfold call_random_choice at 1.
    destruct (random_choice _ _ _) as [indices w1].
    set (s1 := {| world := w1; calls := _ |}).
    pose proof (IH) as IH'.
    destruct (draws random_choice r _ w1) as [rest w2] eqn:Hdraws. cbn [fst].
    intros H. apply Forall2_cons_inv_l in H
      as (x & radii' & (resampled & Htake & Hx) & Hrest & ->).
    unfold bind at 1. unfold lift at 1. rewrite Htake.
    unfold bind at 1. unfold lift at 1. rewrite Hx.
    destruct (IH' (acc ++ [x])%list s1 radii') as [s' Hs'].
    { subst s1. cbn [world]. now rewrite Hdraws. }
    exists s'. rewrite Hs'. now rewrite <- app_assoc.
Qed.

Lemma std_is_population_std (l : list R) :
  l <> [] -> Np.std l = Finite (Spec.population_std l (INR (length l))).
Proof.
  intros Hl. destruct l as [| x l]; [congruence |].
  unfold Np.std, Spec.population_std. cbv zeta.
  do 4 f_equal. apply map_ext. intros y. apply pow2_abs.
Qed.

End PipelineFacts.

(** A run of the whole computation with stand-ins for the collaborators:
    the generator returns no coordinates, every mobility tensor is the
    one of a single bead with the identity as its block, and the inverse
    of a matrix is taken to be the matrix itself. *)
Lemma zero_rounds_sigma_is_nan_witness :
  exists res s',
    protein_hydrodynamic_radius unit
      (fun _ w => ([], w))
      (fun _ _ => [[ [[1; 0; 0]; [0; 1; 0]; [0; 0; 1]] ]])
      (fun _ _ w => ([], w))
      (fun m => Some m)
      "AAAA" default_steric_radius default_hydrodynamic_radius
      default_effective_density default_hydration_thickness
      1%Z (Some 0%Z) default_aminoacid_masses
      {| world := tt; calls := [] |}
    = (inr res, s')
    /\ protein_rh_sigma res = Some NaN.
Proof.
  eexists _, _. split; [run_model; reflexivity |].
  eapply (zero_rounds_sigma_is_nan
            (fun _ w => ([], w))
            (fun _ _ => [[ [[1; 0; 0]; [0; 1; 0]; [0; 0; 1]] ]])
            (fun _ _ w => ([], w))
            (fun m => Some m)
            "AAAA" default_steric_radius default_hydrodynamic_radius
            default_effective_density default_hydration_thickness
            1%Z default_aminoacid_masses {| world := tt; calls := [] |}).
  run_model; reflexivity.
Defined.

(** * Further properties of the parser *)

Lemma occurs_append c a b : occurs c (a ++ b) <-> occurs c a \/ occurs c b.
Proof.
  induction a as [| d a IH]; [rewrite append_empty_l; simpl; tauto |].
  rewrite append_cons. cbn [occurs]. rewrite IH. tauto.
Qed.

Lemma occurs_drop_last c s : occurs c (PyStr.drop_last s) -> occurs c s.
Proof.
  induction s as [| d s IH]; [intros [] |].
  destruct s as [| e s]; [intros [] |].
  change (PyStr.drop_last (String d (String e s)))
    with (String d (PyStr.drop_last (String e s))).
  cbn [occurs] in *. tauto.
Qed.

Lemma occurs_interior c block : occurs c (PyStr.interior block) -> occurs c block.
Proof.
  destruct block as [| d s]; [intros [] |].
  cbn [PyStr.interior occurs]. intros H. right. now apply occurs_drop_last.
Qed.

Lemma occurs_concat c block blocks :
  In block blocks -> occurs c block -> occurs c (String.concat "" blocks).
Proof.
  induction blocks as [| b blocks IH]; [intros [] |].
  intros Hin Hc. destruct blocks as [| b' blocks].
  - destruct Hin as [-> | []]. exact Hc.
  - change (String.concat "" (b :: b' :: blocks))
      with (b ++ "" ++ String.concat "" (b' :: blocks))%string.
    rewrite append_empty_l. apply occurs_append.
    destruct Hin as [-> | Hin]; [now left | right; now apply IH].
Qed.

Lemma length_concat blocks :
  String.length (String.concat "" blocks) = total_length blocks.
Proof.
  induction blocks as [| b blocks IH]; [reflexivity |].
  destruct blocks as [| b' blocks].
  - cbn [String.concat total_length foldr]. lia.
  - change (String.concat "" (b :: b' :: blocks))
      with (b ++ "" ++ String.concat "" (b' :: blocks))%string.
    rewrite append_empty_l, length_append, IH. reflexivity.
Qed.

(** ** The layout of the blocks *)

Lemma lazy_to_close_last s m rest :
  Re.lazy_to_close s = Some (m, rest) -> PyStr.holds "]" (PyStr.last m) = true.
Proof.
  revert m. induction s as [| c s IH]; intros m; [discriminate |].
  cbn [Re.lazy_to_close].
  destruct (Ascii.eqb c "]") eqn:Hc.
  { intros [= <- <-]. cbn [PyStr.last PyStr.holds]. exact Hc. }
  destruct (Ascii.eqb c Re.newline); [discriminate |].
  destruct (Re.lazy_to_close s) as [[m' rest'] |]; [| discriminate].
  intros [= <- <-]. specialize (IH m' eq_refl).
  destruct m' as [| d m']; [discriminate IH | exact IH].
Qed.

Lemma match_here_domain s m rest :
  Re.match_here s = Some (m, rest) -> is_domain_block m = true.
Proof.
  intros H. pose proof (match_here_sound s m rest H) as [_ Hlen]. revert H.
  unfold Re.match_here. destruct s as [| b [| u s]]; try discriminate.
  destruct (Ascii.eqb b "[") eqn:Hb; [| discriminate].
  destruct (Re.is_upper u); [| discriminate]. cbn [andb].
  destruct (Re.lazy_to_close s) as [[m' rest'] |] eqn:E; [| discriminate].
  intros [= <- <-]. apply lazy_to_close_last in E.
  unfold is_domain_block.
  replace (2 <=? String.length (String b (String u m')))%nat with true
    by (symmetry; apply Nat.leb_le; simpl; lia).
  cbn [PyStr.first String.get PyStr.holds]. rewrite Hb. cbn [andb].
  destruct m' as [| d m']; [discriminate E | exact E].
Qed.

Lemma search_domain s pre m rest :
  Re.search s = Some (pre, m, rest) -> is_domain_block m = true.
Proof.
  revert pre. induction s as [| c s IH]; intros pre; cbn [Re.search].
  - destruct (Re.match_here "") as [[m' rest'] |] eqn:E; [| discriminate].
    intros [= <- <- <-]. now apply match_here_domain in E.
  - destruct (Re.match_here (String c s)) as [[m' rest'] |] eqn:E.
    + intros [= <- <- <-]. now apply match_here_domain in E.
    + destruct (Re.search s) as [[[pre' m'] rest'] |]; [| discriminate].
      intros [= <- <- <-]. now apply (IH pre').
Qed.

Lemma split_loop_interleaved fuel : forall s, interleaved (Re.split_loop fuel s).
Proof.
  induction fuel as [| fuel IH]; intros s; cbn [Re.split_loop]; [constructor |].
  destruct (Re.search s) as [[[pre m] rest] |] eqn:E; [| constructor].
  constructor; [now apply search_domain in E | apply IH].
Qed.

Lemma interleaved_nonempty blocks : interleaved blocks -> blocks <> [].
Proof. now destruct 1. Qed.

(** ** What the loop body returns and raises *)

Section BodyFacts.

Variables (hr sr density hydration : R).
Variable masses : gmap ascii R.

Local Abbreviation body := (bead_of_block hr sr density hydration masses).
Local Abbreviation loop := (for_blocks hr sr density hydration masses).
Local Abbreviation parse := (_bead_description_compact hr sr density hydration masses).

Lemma body_inr block g :
  body block = inr g ->
  (is_domain_block block = true
   /\ density <> 0
   /\ exists mass,
        sum_masses masses (PyStr.interior block) 0 = inr mass
        /\ g = (excluded_volume_radius mass density + hydration,
                excluded_volume_radius mass density + hydration, 1%Z))
  \/ (is_domain_block block = false
      /\ is_linker_block block = true
      /\ g = (hr, sr, Z.of_nat (String.length block))).
Proof.
  unfold bead_of_block. destruct (is_domain_block block).
  - destruct (sum_masses masses _ 0) as [e | mass]; [discriminate |]. cbn [rbind].
    destruct (float_div _ density) as [e | volume] eqn:Hdiv; [discriminate |].
    cbn [rbind]. intros [= <-]. apply float_div_inr in Hdiv as [Hd ->].
    left. split; [reflexivity |]. split; [exact Hd |]. now exists mass.
  - destruct (is_linker_block block); [| discriminate].
    intros [= <-]. right. now repeat split.
Qed.

Lemma body_inl block e :
  body block = inl e ->
  (is_domain_block block = true
   /\ ((exists c, e = KeyError c
                  /\ occurs c (PyStr.interior block) /\ masses !! c = None)
       \/ (e = ZeroDivisionError /\ density = 0
           /\ exists mass, sum_masses masses (PyStr.interior block) 0 = inr mass)))
  \/ (is_domain_block block = false
      /\ is_linker_block block = false
      /\ e = ValueError ("Malformed seqence passed: " ++ block)).
Proof.
  unfold bead_of_block. destruct (is_domain_block block).
  - intros H. left. split; [reflexivity |].
    destruct (sum_masses masses _ 0) as [e' | mass] eqn:Hmass; cbn [rbind] in H.
    + injection H as <-. left.
      apply (sum_masses_inl masses) in Hmass as (c & -> & Hc & Hnone). now exists c.
    + right. unfold float_div in H. destruct (Req_dec_T density 0) as [Hd |];
        [| discriminate H].
      cbn [rbind raise] in H. injection H as <-. repeat split; [exact Hd |].
      now exists mass.
  - destruct (is_linker_block block); [discriminate |].
    intros [= <-]. right. now repeat split.
Qed.

(** The loop returns exactly when the body accepts every block, and then
    it has added their beads in order. *)
Lemma for_blocks_inr blocks :
  forall acc groups,
    loop blocks acc = inr groups
    <-> exists new,
          groups = (acc ++ new)%list
          /\ Forall2 (fun block g => body block = inr g) blocks new.
Proof.
  induction blocks as [| block rest IH]; intros acc groups.
  - cbn [for_blocks]. split.
    + intros [= <-]. exists []. split; [now rewrite app_nil_r | constructor].
    + intros (new & -> & H). apply Forall2_nil_inv_l in H as ->.
      now rewrite app_nil_r.
  - rewrite for_blocks_cons. split.
    + destruct (body block) as [e | g] eqn:Hb; [discriminate |]. cbn [rbind].
      intros (new & -> & Hnew)%IH. exists (g :: new).
      split; [now rewrite <- app_assoc | now constructor].
    + intros (new & -> & H).
      apply Forall2_cons_inv_l in H as (g & new' & Hg & Hnew & ->).
      rewrite Hg. cbn [rbind]. apply IH. exists new'.
      split; [now rewrite <- app_assoc | exact Hnew].
Qed.

Lemma parse_inr sequence groups :
  parse sequence = inr groups
  <-> Forall2 (fun block g => body block = inr g) (Re.split sequence) groups.
Proof.
  unfold _bead_description_compact. rewrite for_blocks_inr. split.
  - now intros (new & -> & H).
  - intros H. now exists groups.
Qed.

End BodyFacts.

(** ** Invariants of the parsed description *)

Section ParsedFacts.

Variables (hr sr density hydration : R).
Variable masses : gmap ascii R.

Local Abbreviation body := (bead_of_block hr sr density hydration masses).
Local Abbreviation parse := (_bead_description_compact hr sr density hydration masses).

Lemma accepted_count_bounds block g :
  body block = inr g -> (1 <= bead_n g <= Z.of_nat (String.length block))%Z.
Proof.
  intros [(Hdom & _ & mass & _ & ->) | (_ & Hlin & ->)]%body_inr; cbn [bead_n snd].
  - unfold is_domain_block in Hdom.
    apply andb_prop in Hdom as [[Hlen%Nat.leb_le _]%andb_prop _]. lia.
  - unfold is_linker_block in Hlin.
    apply andb_prop in Hlin as [[Hlen%Nat.ltb_lt _]%andb_prop _]. lia.
Qed.

Lemma accepted_counts_bounds blocks groups :
  Forall2 (fun block g => body block = inr g) blocks groups ->
  Forall (fun g => (1 <= bead_n g)%Z) groups
  /\ (Z.of_nat (length groups) <= total_count groups
      <= Z.of_nat (total_length blocks))%Z.
Proof.
  induction 1 as [| block g blocks groups Hg _ [IHall IHsum]].
  - split; [constructor | simpl; lia].
  - apply accepted_count_bounds in Hg.
    split; [constructor; [lia | exact IHall] |].
    cbn [total_count total_length foldr length].
    unfold total_count, total_length in IHsum. lia.
Qed.

(** X1.  A returned description has at least one group, every group has a
    count of at least 1, and the total number of beads, which is the
    length of both radius arrays, lies between 1 and the number of
    characters of the sequence. *)
Theorem parsed_bead_count_bounds sequence groups :
  _bead_description_compact hr sr density hydration masses sequence = inr groups ->
  Forall (fun g => (1 <= bead_n g)%Z) groups
  /\ (1 <= total_count groups <= Z.of_nat (String.length sequence))%Z
  /\ Z.of_nat (length (_bead_steric_radii groups)) = total_count groups
  /\ Z.of_nat (length (_bead_hydrodynamic_radii groups)) = total_count groups.
Proof.
  intros H%parse_inr.
  pose proof (split_loop_interleaved (S (String.length sequence)) sequence) as Hlay.
  fold (Re.split sequence) in Hlay. apply interleaved_nonempty in Hlay.
  destruct (accepted_counts_bounds _ _ H) as [Hall [Hlow Hhigh]].
  rewrite <- length_concat, split_pieces in Hhigh.
  assert (Hlen : (1 <= length groups)%nat).
  { apply Forall2_length in H. destruct (Re.split sequence); [congruence |].
    rewrite <- H. simpl. lia. }
  assert (Hnonneg : Forall (fun b => (0 <= bead_n b)%Z) groups).
  { eapply Forall_impl; [exact Hall |]. intros g Hg. simpl in Hg. lia. }
  split; [exact Hall |]. split; [lia |].
  unfold _bead_steric_radii, _bead_hydrodynamic_radii.
  rewrite !fold_left_app_flat_map. cbn [app].
  split; now apply length_flat_map_replicate.
Qed.

(** X2.  A returned description has an odd number of groups, and every
    second group, from the second on, is a single domain bead with equal
    radii: the groups of the texts between the matches alternate with
    those of the matches. *)
Theorem parsed_groups_interleave sequence groups :
  _bead_description_compact hr sr density hydration masses sequence = inr groups ->
  (exists k, length groups = (2 * k + 1)%nat)
  /\ forall i g, groups !! (2 * i + 1)%nat = Some g ->
       bead_n g = 1%Z /\ bead_hr g = bead_sr g.
Proof.
  intros H%parse_inr.
  pose proof (split_loop_interleaved (S (String.length sequence)) sequence) as Hlay.
  fold (Re.split sequence) in Hlay. revert groups H.
  induction Hlay as [text | text found rest Hdom _ IH]; intros groups H.
  - apply Forall2_cons_inv_l in H as (g & new & _ & Hnew & ->).
    apply Forall2_nil_inv_l in Hnew as ->. split; [now exists 0%nat |].
    intros i g' Hi. replace (2 * i + 1)%nat with (S (2 * i)) in Hi by lia.
    discriminate Hi.
  - apply Forall2_cons_inv_l in H as (g0 & new & _ & Hnew & ->).
    apply Forall2_cons_inv_l in Hnew as (g1 & new' & Hg1 & Hnew' & ->).
    destruct (IH new' Hnew') as [[k Hk] Hodd]. split.
    + exists (S k). cbn [length]. lia.
    + intros i g Hi. destruct i as [| i].
      * cbn in Hi. injection Hi as <-.
        apply body_inr in Hg1 as [(_ & _ & mass & _ & ->) | (Hno & _)];
          [split; reflexivity | congruence].
      * replace (2 * S i + 1)%nat with (S (S (2 * i + 1))) in Hi by lia.
        apply (Hodd i g Hi).
Qed.

(** X3.  A [ValueError] of the parser carries the message
    ["Malformed seqence passed: "] followed by one of the blocks of the
    sequence, and that block passes neither test of the loop: it is
    empty, or starts with ["["], or ends with ["]"], without being
    bracket-delimited. *)
Theorem value_error_names_a_block sequence msg :
  _bead_description_compact hr sr density hydration masses sequence
    = inl (ValueError msg) ->
  exists block,
    In block (Re.split sequence)
    /\ msg = ("Malformed seqence passed: " ++ block)%string
    /\ is_domain_block block = false
    /\ is_linker_block block = false.
Proof.
  unfold _bead_description_compact.
  intros (before & block & after & E & _ & Hraise)%for_blocks_inl.
  exists block. split; [rewrite E; apply in_elt |].
  apply body_inl in Hraise as [[_ [(c & Hc & _) | (Hz & _)]] | (Hdom & Hlin & He)];
    try discriminate.
  injection He as ->. now repeat split.
Qed.

(** X4.  A [KeyError] of the parser names a character that occurs in the
    sequence and has no entry in the mass table. *)
Theorem key_error_names_a_missing_character sequence c :
  _bead_description_compact hr sr density hydration masses sequence
    = inl (KeyError c) ->
  occurs c sequence /\ masses !! c = None.
Proof.
  unfold _bead_description_compact.
  intros (before & block & after & E & _ & Hraise)%for_blocks_inl.
  apply body_inl in Hraise as [[_ [(c' & Hc & Hin & Hnone) | (Hz & _)]] | (_ & _ & He)];
    try discriminate.
  injection Hc as <-. split; [| exact Hnone].
  rewrite <- (split_pieces sequence).
  apply (occurs_concat c block); [rewrite E; apply in_elt |].
  now apply occurs_interior.
Qed.

(** X5.  The parser raises nothing but [ValueError], [KeyError] and
    [ZeroDivisionError], and the last one only when the effective
    density is zero and some bracket-delimited block has all its
    residues in the table. *)
Theorem parser_exceptions sequence e :
  _bead_description_compact hr sr density hydration masses sequence = inl e ->
  (exists msg, e = ValueError msg)
  \/ (exists c, e = KeyError c)
  \/ (e = ZeroDivisionError
      /\ density = 0
      /\ exists block mass,
           In block (Re.split sequence)
           /\ is_domain_block block = true
           /\ sum_masses masses (PyStr.interior block) 0 = inr mass).
Proof.
  unfold _bead_description_compact.
  intros (before & block & after & E & _ & Hraise)%for_blocks_inl.
  apply body_inl in Hraise
    as [[Hdom [(c & -> & _) | (-> & Hd & mass & Hmass)]] | (_ & _ & ->)].
  - right. left. now exists c.
  - right. right. split; [reflexivity |]. split; [exact Hd |].
    exists block, mass. split; [rewrite E; apply in_elt |]. now split.
  - left. eexists. reflexivity.
Qed.

End ParsedFacts.

(** ** Which well-formed sequences the parser accepts *)

Lemma sum_masses_inr_known masses residues :
  forall acc mass,
    sum_masses masses residues acc = inr mass -> all_known masses residues = true.
Proof.
  unfold all_known. induction residues as [| aa rest IH]; intros acc mass;
    [reflexivity |].
  cbn [sum_masses string_forall].
  destruct (masses !! aa) as [m |]; [| discriminate].
  intros H. now rewrite (IH _ _ H).
Qed.

Lemma bracketed_segments_nonneg segs : (0 <= bracketed_segments segs)%Z.
Proof.
  induction segs as [| [r | r] rest IH]; [simpl; lia | |];
    cbn [bracketed_segments foldr]; unfold bracketed_segments in IH; lia.
Qed.

Section AcceptedSequences.

Variables (hr sr density hydration : R).
Variable masses : gmap ascii R.

Local Abbreviation body := (bead_of_block hr sr density hydration masses).
Local Abbreviation loop := (for_blocks hr sr density hydration masses).

Lemma returns_then_flanked segs :
  forall (after_free : bool) pre acc groups,
    wf_segments segs = true ->
    (if after_free then wf_free pre = true /\ starts_free segs = false
     else pre = "") ->
    loop (blocks_from pre segs) acc = inr groups ->
    flanked after_free segs = true
    /\ forallb (bracketed_known masses) segs = true
    /\ (density = 0 -> bracketed_segments segs = 0%Z).
Proof.
  induction segs as [| [residues | residues] rest IH];
    intros after_free pre acc groups Hwf Hpre; cbn [blocks_from].
  - destruct after_free; [now repeat split |].
    subst pre. rewrite for_blocks_cons, bead_of_empty_block. discriminate.
  - cbn [wf_segments] in Hwf.
    apply andb_prop in Hwf as [[Hfree Hnext]%andb_prop Hrest].
    apply negb_true_iff in Hnext.
    destruct after_free; [destruct Hpre as [_ Hpre]; discriminate Hpre |].
    subst pre. rewrite append_empty_l. intros Hloop.
    destruct (IH true residues acc groups Hrest (conj Hfree Hnext) Hloop)
      as (Hfl & Hknown & Hd).
    cbn [flanked forallb bracketed_known bracketed_segments foldr negb andb].
    repeat split; assumption.
  - cbn [wf_segments] in Hwf. apply andb_prop in Hwf as [Hres Hrest].
    destruct after_free.
    + destruct Hpre as [Hpre _]. rewrite for_blocks_cons.
      rewrite (bead_of_free_run _ _ _ _ _ pre Hpre). cbn [rbind].
      rewrite for_blocks_cons.
      destruct (body ("[" ++ residues ++ "]")) as [e | g] eqn:Hg; [discriminate |].
      cbn [rbind]. intros Hloop.
      destruct (IH false "" _ groups Hrest eq_refl Hloop) as (Hfl & Hknown & _).
      destruct (bracketed_run_is_domain_block residues) as [Hdom Hint].
      apply body_inr in Hg as [(_ & Hd & mass & Hmass & _) | (Hno & _)];
        [| congruence].
      rewrite Hint in Hmass. apply sum_masses_inr_known in Hmass.
      cbn [flanked forallb bracketed_known andb]. rewrite Hmass.
      repeat split; [exact Hfl | exact Hknown | contradiction].
    + subst pre. rewrite for_blocks_cons, bead_of_empty_block. discriminate.
Qed.

Lemma flanked_then_returns segs :
  forall (after_free : bool) pre acc,
    wf_segments segs = true ->
    flanked after_free segs = true ->
    forallb (bracketed_known masses) segs = true ->
    (density = 0 -> bracketed_segments segs = 0%Z) ->
    (if after_free then wf_free pre = true else pre = "") ->
    exists groups, loop (blocks_from pre segs) acc = inr groups.
Proof.
  induction segs as [| [residues | residues] rest IH];
    intros after_free pre acc Hwf Hfl Hknown Hd Hpre;
    cbn [blocks_from flanked forallb bracketed_known] in *.
  - subst after_free. rewrite for_blocks_cons.
    rewrite (bead_of_free_run _ _ _ _ _ pre Hpre). cbn [rbind for_blocks].
    eexists. reflexivity.
  - apply andb_prop in Hfl as [Hflag Hfl]. apply negb_true_iff in Hflag.
    subst after_free pre. rewrite append_empty_l.
    cbn [wf_segments] in Hwf.
    apply andb_prop in Hwf as [[Hfree _]%andb_prop Hrest].
    now apply (IH true).
  - apply andb_prop in Hfl as [-> Hfl]. apply andb_prop in Hknown as [Hres Hknown].
    cbn [wf_segments] in Hwf. apply andb_prop in Hwf as [_ Hrest].
    assert (Hd' : density <> 0).
    { intros Hz. specialize (Hd Hz). cbn [bracketed_segments foldr] in Hd.
      pose proof (bracketed_segments_nonneg rest) as Hn.
      unfold bracketed_segments in Hn. lia. }
    rewrite for_blocks_cons.
    rewrite (bead_of_free_run _ _ _ _ _ pre Hpre). cbn [rbind].
    rewrite for_blocks_cons.
    destruct (bead_of_known_run hr sr density hydration masses residues Hres Hd')
      as [g ->].
    cbn [rbind]. apply (IH false); try assumption; [| reflexivity].
    intros Hz. contradiction.
Qed.

(** X6.  On a well-formed annotated sequence the parser returns exactly
    when free and bracketed segments alternate between a first and a last
    free segment, every residue of a bracketed segment has a mass in the
    table, and the density is not zero unless there is no bracketed
    segment.  A sequence that begins or ends with a bracketed segment, or
    has two of them side by side, or is empty, is rejected. *)
Theorem parser_accepts_flanked_sequences segs :
  wf_segments segs = true ->
  (exists groups,
     _bead_description_compact hr sr density hydration masses (render segs)
     = inr groups)
  <-> flanked false segs = true
      /\ forallb (bracketed_known masses) segs = true
      /\ (density = 0 -> bracketed_segments segs = 0%Z).
Proof.
  intros Hwf. unfold _bead_description_compact. rewrite (split_render segs Hwf).
  split.
  - intros [groups H]. exact (returns_then_flanked segs false "" [] groups Hwf eq_refl H).
  - intros (Hfl & Hknown & Hd).
    now apply (flanked_then_returns segs false "" []).
Qed.

(** X7.  A sequence of at least one character and without brackets is
    parsed into one linker group that counts its characters, whatever
    the mass table and the density. *)
Theorem bracket_free_sequence_is_one_linker sequence :
  wf_free sequence = true ->
  _bead_description_compact hr sr density hydration masses sequence
  = inr [(hr, sr, Z.of_nat (String.length sequence))].
Proof.
  intros Hfree. unfold _bead_description_compact.
  assert (Hwf : wf_segments [Free sequence] = true).
  { cbn [wf_segments starts_free negb]. now rewrite Hfree. }
  pose proof (split_render [Free sequence] Hwf) as Hsplit.
  cbn [render render_segment blocks_from] in Hsplit.
  rewrite append_empty_r, append_empty_l in Hsplit. rewrite Hsplit.
  rewrite for_blocks_cons, (bead_of_free_run _ _ _ _ _ sequence Hfree).
  reflexivity.
Qed.

End AcceptedSequences.

(** ** The radii of the parsed beads *)

Lemma float_pow_nonneg x y : 0 <= float_pow x y.
Proof.
  unfold float_pow. destruct (Req_dec_T x 0); [lra |].
  unfold Rpower. left. apply exp_pos.
Qed.

Lemma default_masses_nonneg c m :
  default_aminoacid_masses !! c = Some m -> 0 <= m.
Proof.
  unfold default_aminoacid_masses. intros H.
  apply elem_of_list_to_map_2 in H.
  repeat (apply elem_of_cons in H as [H | H]; [injection H as _ ->; lra |]).
  now apply elem_of_nil in H.
Qed.

(** X8.  With positive linker radii, a positive hydration thickness, a
    positive density and a table of non-negative masses, every group of a
    returned description has positive radii, and the radius of a domain
    bead is at least the hydration thickness. *)
Theorem parsed_radii_are_positive hr sr density hydration masses sequence groups :
  0 < hr -> 0 < sr -> 0 < hydration -> 0 < density ->
  (forall c m, masses !! c = Some m -> 0 <= m) ->
  _bead_description_compact hr sr density hydration masses sequence = inr groups ->
  Forall (fun g =>
            0 < bead_hr g /\ 0 < bead_sr g
            /\ (g = (hr, sr, bead_n g)
                \/ (hydration <= bead_hr g /\ bead_hr g = bead_sr g /\ bead_n g = 1%Z)))
         groups.
Proof.
  intros Hhr Hsr Hh Hd _ H%parse_inr.
  induction H as [| block g blocks groups Hg _ IH]; constructor; [| exact IH].
  apply body_inr in Hg as [(_ & _ & mass & _ & ->) | (_ & _ & ->)];
    cbn [bead_hr bead_sr bead_n fst snd].
  - pose proof (float_pow_nonneg (mass * (3 / (4 * PI)) / density) (1 / 3)) as Hp.
    unfold excluded_volume_radius.
    repeat split; try lra. right. repeat split; lra.
  - repeat split; try assumption. now left.
Qed.

(** X9.  The excluded-volume radius of a domain is the radius of the
    sphere whose volume is the mass of the domain divided by the density:
    [4/3 * pi * r^3 = mass / density], for a non-negative mass and a
    positive density. *)
Theorem excluded_volume_is_mass_over_density (mass density : R) :
  0 <= mass -> 0 < density ->
  4 / 3 * PI * excluded_volume_radius mass density ^ 3 = mass / density.
Proof.
  intros Hm Hd. unfold excluded_volume_radius.
  assert (Hpi : 0 < PI) by apply PI_RGT_0.
  destruct Hm as [Hm | <-].
  - assert (Hx : 0 < mass * (3 / (4 * PI)) / density).
    { apply Rdiv_lt_0_compat; [| assumption].
      apply Rmult_lt_0_compat; [assumption |]. apply Rdiv_lt_0_compat; lra. }
    rewrite float_pow_positive by assumption.
    rewrite <- (Rpower_pow 3) by (unfold Rpower; apply exp_pos).
    rewrite Rpower_mult.
    replace (1 / 3 * INR 3) with 1 by (simpl; field).
    rewrite Rpower_1 by assumption. field. lra.
  - replace (0 * (3 / (4 * PI)) / density) with 0 by (unfold Rdiv; ring).
    rewrite float_pow_zero. unfold Rdiv. ring.
Qed.

(** X10.  At a fixed positive density a heavier domain has a strictly
    larger excluded-volume radius. *)
Theorem excluded_volume_radius_grows_with_mass (m1 m2 density : R) :
  0 <= m1 < m2 -> 0 < density ->
  excluded_volume_radius m1 density < excluded_volume_radius m2 density.
Proof.
  intros [Hm1 Hm12] Hd. unfold excluded_volume_radius.
  assert (Hpi : 0 < PI) by apply PI_RGT_0.
  assert (Hk : 0 < 3 / (4 * PI) / density).
  { apply Rdiv_lt_0_compat; [| assumption]. apply Rdiv_lt_0_compat; lra. }
  assert (H2 : 0 < m2 * (3 / (4 * PI)) / density).
  { replace (m2 * (3 / (4 * PI)) / density) with (m2 * (3 / (4 * PI) / density))
      by (unfold Rdiv; ring).
    apply Rmult_lt_0_compat; lra. }
  rewrite (float_pow_positive _ _ H2).
  destruct Hm1 as [Hm1 | <-].
  - assert (H1 : 0 < m1 * (3 / (4 * PI)) / density).
    { replace (m1 * (3 / (4 * PI)) / density) with (m1 * (3 / (4 * PI) / density))
        by (unfold Rdiv; ring).
      apply Rmult_lt_0_compat; lra. }
    rewrite (float_pow_positive _ _ H1).
    apply Rlt_Rpower_l; [lra |]. split; [assumption |].
    replace (m1 * (3 / (4 * PI)) / density) with (m1 * (3 / (4 * PI) / density))
      by (unfold Rdiv; ring).
    replace (m2 * (3 / (4 * PI)) / density) with (m2 * (3 / (4 * PI) / density))
      by (unfold Rdiv; ring).
    apply Rmult_lt_compat_r; assumption.
  - replace (0 * (3 / (4 * PI)) / density) with 0 by (unfold Rdiv; ring).
    rewrite float_pow_zero. unfold Rpower. apply exp_pos.
Qed.

(** * Further properties of the radius expanders *)

Lemma length_flat_map_replicate_any {A : Type} (f : bead -> A) (bdc : list bead) :
  Z.of_nat (length (flat_map (fun b => replicate (Z.to_nat (bead_n b)) (f b)) bdc))
  = positive_count bdc.
Proof.
  induction bdc as [| b bdc IH]; [reflexivity |].
  cbn [flat_map positive_count foldr]. unfold positive_count in IH.
  rewrite length_app, length_replicate, Nat2Z.inj_add, IH. lia.
Qed.

(** X11.  For every list of groups, also one with zero or negative
    counts, the two expanders return arrays of one length, the sum of the
    positive counts: a group whose count is not positive adds no bead. *)
Theorem expanders_skip_nonpositive_counts (bdc : list bead) :
  length (_bead_steric_radii bdc) = length (_bead_hydrodynamic_radii bdc)
  /\ Z.of_nat (length (_bead_steric_radii bdc)) = positive_count bdc.
Proof.
  unfold _bead_steric_radii, _bead_hydrodynamic_radii.
  rewrite !fold_left_app_flat_map. cbn [app].
  pose proof (length_flat_map_replicate_any bead_sr bdc) as Hs.
  pose proof (length_flat_map_replicate_any bead_hr bdc) as Hh.
  split; [lia | exact Hs].
Qed.

(** X12.  The two arrays are aligned: taken together position by
    position, they are the pairs of radii of the groups, each repeated
    [count] times, so the two radii at one position belong to one
    group. *)
Theorem expanded_radii_are_aligned (bdc : list bead) :
  zip (_bead_hydrodynamic_radii bdc) (_bead_steric_radii bdc)
  = flat_map (fun b => replicate (Z.to_nat (bead_n b)) (bead_hr b, bead_sr b)) bdc.
Proof.
  unfold _bead_steric_radii, _bead_hydrodynamic_radii.
  rewrite !fold_left_app_flat_map. cbn [app].
  induction bdc as [| b bdc IH]; [reflexivity |].
  cbn [flat_map].
  rewrite zip_with_app by now rewrite !length_replicate.
  now rewrite zip_with_replicate, IH.
Qed.

(** X13.  Expanding two descriptions put end to end gives the two
    expansions put end to end. *)
Theorem expanders_distribute_over_concatenation (bdc1 bdc2 : list bead) :
  _bead_steric_radii (bdc1 ++ bdc2)
    = (_bead_steric_radii bdc1 ++ _bead_steric_radii bdc2)%list
  /\ _bead_hydrodynamic_radii (bdc1 ++ bdc2)
    = (_bead_hydrodynamic_radii bdc1 ++ _bead_hydrodynamic_radii bdc2)%list.
Proof.
  unfold _bead_steric_radii, _bead_hydrodynamic_radii.
  rewrite !fold_left_app_flat_map. cbn [app].
  now rewrite !flat_map_app.
Qed.

(** * Further properties of the whole computation *)

Lemma sum_list_constant (c : R) (l : list R) :
  Forall (fun x => x = c) l -> Np.sum_list l = INR (length l) * c.
Proof.
  induction 1 as [| x l -> _ IH]; [simpl; lra |].
  cbn [Np.sum_list foldr]. unfold Np.sum_list in IH. rewrite IH.
  change (length (c :: l)) with (S (length l)). rewrite S_INR. lra.
Qed.

Lemma sum_list_zero {A : Type} (f : A -> R) (l : list A) :
  Forall (fun x => f x = 0) l -> Np.sum_list (map f l) = 0.
Proof.
  induction 1 as [| x l Hx _ IH]; [reflexivity |].
  cbn [map Np.sum_list foldr]. unfold Np.sum_list in IH. rewrite Hx, IH. lra.
Qed.

(** The standard deviation of equal values is 0. *)
Lemma std_constant (c : R) (l : list R) :
  l <> [] -> Forall (fun x => x = c) l -> Np.std l = Finite 0.
Proof.
  intros Hne Hall. destruct l as [| x l]; [congruence |].
  unfold Np.std. cbv zeta. f_equal.
  assert (Hn : INR (length (x :: l)) <> 0).
  { change (length (x :: l)) with (S (length l)). apply not_0_INR. lia. }
  rewrite (sum_list_constant c (x :: l) Hall).
  replace (INR (length (x :: l)) * c / INR (length (x :: l))) with c
    by (field; exact Hn).
  rewrite sum_list_zero.
  - unfold Rdiv. rewrite Rmult_0_l. apply sqrt_0.
  - eapply Forall_impl; [exact Hall |]. intros y ->. cbn beta.
    replace (c - c) with 0 by ring. rewrite Rabs_R0. ring.
Qed.

Lemma std_nonneg (l : list R) :
  l <> [] -> exists x, 0 <= x /\ Np.std l = Finite x.
Proof.
  intros Hne. destruct l as [| y l]; [congruence |].
  unfold Np.std. cbv zeta. eexists. split; [apply sqrt_pos | reflexivity].
Qed.

Section RunFacts.

Context {World : Type}.
Variable generateChain : list R -> World -> conformation * World.
Variable muTT : conformation -> list R -> tensor.
Variable random_choice : nat -> nat -> World -> list nat * World.
Variable linalg_inv : matrix -> option matrix.

Local Abbreviation run_loop := (bootstrap_loop World random_choice linalg_inv).
Local Abbreviation run :=
  (protein_hydrodynamic_radius World generateChain muTT random_choice linalg_inv).

(** The draws of a generator that keeps the contract of
    [np.random.choice(m, m)]. *)
Lemma draws_in_range rounds m :
  (forall a size w, (0 < a)%nat ->
     length (fst (random_choice a size w)) = size
     /\ Forall (fun i => (i < a)%nat) (fst (random_choice a size w))) ->
  (0 < m)%nat ->
  forall w,
    Forall (fun indices => length indices = m /\ Forall (fun i => (i < m)%nat) indices)
           (fst (draws random_choice rounds m w)).
Proof.
  intros Hchoice Hm. induction rounds as [| r IH]; intros w; simpl; [constructor |].
  pose proof (Hchoice m m w Hm) as Hc.
  destruct (random_choice m m w) as [indices w1].
  specialize (IH w1). destruct (draws random_choice r m w1) as [rest w2].
  constructor; [exact Hc | exact IH].
Qed.

(** The state that a returning bootstrap loop leaves. *)
Lemma bootstrap_loop_state rounds grand_grand_mu :
  forall acc s l s',
    run_loop rounds grand_grand_mu acc s = (inr l, s') ->
    s' = {| world := snd (draws random_choice rounds (length grand_grand_mu)
                            (world World s));
            calls := (calls World s
                      ++ replicate rounds
                           (RandomChoice (length grand_grand_mu)
                                         (length grand_grand_mu)))%list |}.
Proof.
  induction rounds as [| r IH]; intros acc s l s'; cbn [bootstrap_loop draws].
  - unfold ret. intros [= _ <-]. cbn [snd replicate]. rewrite app_nil_r.
    now destruct s.
  - intros H.
    apply bind_inr in H as (indices & s1 & Hchoice & H).
    unfold call_random_choice in Hchoice.
    destruct (random_choice _ _ _) as [indices' w1]. injection Hchoice as -> <-.
    apply bind_inr in H as (resampled & s2 & Htake & H).
    apply lift_inr in Htake as [_ ->].
    apply bind_inr in H as (x & s3 & Hx & H).
    apply lift_inr in Hx as [_ ->].
    apply IH in H as ->. cbn [world calls].
    destruct (draws random_choice r _ w1) as [rest w2]. cbn [snd replicate].
    now rewrite <- app_assoc.
Qed.

Lemma bootstrap_loop_length rounds grand_grand_mu s l s' :
  run_loop rounds grand_grand_mu [] s = (inr l, s') -> length l = rounds.
Proof.
  intros (radii & -> & Hradii)%(bootstrap_loop_inr random_choice linalg_inv).
  apply Forall2_length in Hradii. rewrite (draws_length random_choice) in Hradii.
  cbn [app]. congruence.
Qed.

(** X14.  When the parser raises, the whole computation raises the same
    exception at once: neither the chain generator nor
    [np.random.choice] is called, and the generators are left as they
    were. *)
Theorem parser_error_stops_the_run
    sequence sr hr density hydration n bootstrap_rounds masses e s :
  _bead_description_compact hr sr density hydration masses sequence = inl e ->
  protein_hydrodynamic_radius World generateChain muTT random_choice linalg_inv
      sequence sr hr density hydration n bootstrap_rounds masses s
  = (inl e, s).
Proof.
  intros H. unfold protein_hydrodynamic_radius, bind, lift. now rewrite H.
Qed.

(** X15.  A run that returns has called the chain generator
    [ensemble_size] times, each time on the steric radii of the parsed
    beads, and then [np.random.choice(ensemble_size, ensemble_size)] once
    per bootstrap round, and nothing else that draws random numbers; with
    [bootstrap_rounds = None] or a count below 1 it draws no indices. *)
Theorem returning_run_calls
    sequence sr hr density hydration n bootstrap_rounds masses s res s' :
  protein_hydrodynamic_radius World generateChain muTT random_choice linalg_inv
      sequence sr hr density hydration n bootstrap_rounds masses s
    = (inr res, s') ->
  exists bdc,
    _bead_description_compact hr sr density hydration masses sequence = inr bdc
    /\ calls World s'
       = (calls World s
          ++ replicate (Z.to_nat n) (GenerateChain (_bead_steric_radii bdc))
          ++ replicate (match bootstrap_rounds with
                        | Some rounds => Z.to_nat rounds
                        | None => 0%nat
                        end)
               (RandomChoice (Z.to_nat n) (Z.to_nat n)))%list.
Proof.
  intros H.
  apply (protein_hydrodynamic_radius_inr generateChain muTT random_choice linalg_inv)
    in H as (bdc & Hparse & _ & Hboot).
  exists bdc. split; [exact Hparse |].
  destruct bootstrap_rounds as [rounds |].
  - destruct Hboot as (l & Hloop & _).
    apply bootstrap_loop_state in Hloop as ->. cbn [calls].
    rewrite length_map, (chains_length generateChain). now rewrite <- app_assoc.
  - destruct Hboot as [_ ->]. cbn [calls replicate]. now rewrite app_nil_r.
Qed.

(** X16.  The radius under ["protein_rh"] does not depend on
    [bootstrap_rounds]: two runs from the same generator state that
    return, with any two settings of it, report the same radius. *)
Theorem protein_rh_ignores_bootstrap_rounds
    sequence sr hr density hydration n rounds1 rounds2 masses s res1 s1 res2 s2 :
  protein_hydrodynamic_radius World generateChain muTT random_choice linalg_inv
      sequence sr hr density hydration n rounds1 masses s
    = (inr res1, s1) ->
  protein_hydrodynamic_radius World generateChain muTT random_choice linalg_inv
      sequence sr hr density hydration n rounds2 masses s
    = (inr res2, s2) ->
  protein_rh res1 = protein_rh res2.
Proof.
  intros H1 H2.
  apply (protein_hydrodynamic_radius_inr generateChain muTT random_choice linalg_inv)
    in H1 as (bdc1 & Hparse1 & Hrh1 & _).
  apply (protein_hydrodynamic_radius_inr generateChain muTT random_choice linalg_inv)
    in H2 as (bdc2 & Hparse2 & Hrh2 & _).
  rewrite Hparse1 in Hparse2. injection Hparse2 as <-.
  cbv zeta in Hrh1, Hrh2. rewrite Hrh1 in Hrh2. now injection Hrh2.
Qed.

(** X17.  When the reduction of the ensemble raises (for instance
    [LinAlgError], the matrix of traces having no inverse), the run
    raises the same exception right after the [ensemble_size] calls of
    the chain generator: no bootstrap round is started. *)
Theorem reduction_error_stops_the_run
    sequence sr hr density hydration n bootstrap_rounds masses bdc e s :
  _bead_description_compact hr sr density hydration masses sequence = inr bdc ->
  effective_radius linalg_inv
    (map (fun locations => muTT locations (_bead_hydrodynamic_radii bdc))
         (fst (chains generateChain (Z.to_nat n) (_bead_steric_radii bdc)
                 (world World s))))
    = inl e ->
  protein_hydrodynamic_radius World generateChain muTT random_choice linalg_inv
      sequence sr hr density hydration n bootstrap_rounds masses s
  = (inl e,
     {| world := snd (chains generateChain (Z.to_nat n) (_bead_steric_radii bdc)
                        (world World s));
        calls := (calls World s
                  ++ replicate (Z.to_nat n)
                       (GenerateChain (_bead_steric_radii bdc)))%list |}).
Proof.
  intros Hparse Hrh. unfold protein_hydrodynamic_radius.
  rewrite Hparse. unfold bind at 1. unfold lift at 1.
  unfold bind at 1. rewrite ensemble_loop_run. cbn [app].
  unfold bind at 1. unfold lift at 1. now rewrite Hrh.
Qed.

(** The value under ["protein_rh_sigma"] by the setting of
    [bootstrap_rounds]. *)
Lemma sigma_by_rounds
    sequence sr hr density hydration n bootstrap_rounds masses s res s' :
  run sequence sr hr density hydration n bootstrap_rounds masses s = (inr res, s') ->
  match bootstrap_rounds with
  | None => protein_rh_sigma res = None
  | Some rounds =>
      if (0 <? rounds)%Z
      then exists x, 0 <= x /\ protein_rh_sigma res = Some (Finite x)
      else protein_rh_sigma res = Some NaN
  end.
Proof.
  intros H.
  apply (protein_hydrodynamic_radius_inr generateChain muTT random_choice linalg_inv)
    in H as (bdc & _ & _ & Hboot).
  destruct bootstrap_rounds as [rounds |]; [| now destruct Hboot].
  destruct Hboot as (l & Hloop & ->).
  apply bootstrap_loop_length in Hloop.
  destruct (Z.ltb_spec 0 rounds) as [Hpos | Hneg].
  - destruct (std_nonneg l) as (x & Hx & ->).
    + intros ->. simpl in Hloop. lia.
    + now exists x.
  - replace (Z.to_nat rounds) with 0%nat in Hloop by lia.
    destruct l; [reflexivity | discriminate Hloop].
Qed.

(** X18.  The value under ["protein_rh_sigma"] of a run that returns is
    [None] when [bootstrap_rounds] is [None], [nan] when it is an integer
    below 1 (zero or negative), and a non-negative float when it is at
    least 1. *)
Theorem sigma_is_none_nan_or_nonnegative
    sequence sr hr density hydration n bootstrap_rounds masses s res s' :
  protein_hydrodynamic_radius World generateChain muTT random_choice linalg_inv
      sequence sr hr density hydration n bootstrap_rounds masses s
    = (inr res, s') ->
  match bootstrap_rounds with
  | None => protein_rh_sigma res = None
  | Some rounds =>
      ((rounds < 1)%Z -> protein_rh_sigma res = Some NaN)
      /\ ((1 <= rounds)%Z ->
          exists x, 0 <= x /\ protein_rh_sigma res = Some (Finite x))
  end.
Proof.
  intros H%sigma_by_rounds. destruct bootstrap_rounds as [rounds |]; [| exact H].
  destruct (Z.ltb_spec 0 rounds); split; intros; try lia; exact H.
Qed.

(** X19.  With one bootstrap round the reported uncertainty is 0. *)
Theorem one_round_sigma_is_zero
    sequence sr hr density hydration n masses s res s' :
  protein_hydrodynamic_radius World generateChain muTT random_choice linalg_inv
      sequence sr hr density hydration n (Some 1%Z) masses s
    = (inr res, s') ->
  protein_rh_sigma res = Some (Finite 0).
Proof.
  intros H.
  apply (protein_hydrodynamic_radius_inr generateChain muTT random_choice linalg_inv)
    in H as (bdc & _ & _ & l & Hloop & ->).
  apply bootstrap_loop_length in Hloop.
  destruct l as [| x [| y l]]; try discriminate Hloop.
  f_equal. apply (std_constant x); [discriminate | now repeat constructor].
Qed.

End RunFacts.

(** * The command-line wrapper and the example script *)

Section MainFacts.

Context {World : Type}.
Variable generateChain : list R -> World -> conformation * World.
Variable muTT : conformation -> list R -> tensor.
Variable random_choice : nat -> nat -> World -> list nat * World.
Variable linalg_inv : matrix -> option matrix.

(** X21.  [main] prints the radius under its caption, and the
    uncertainty under a second caption only when [--bootstrap_rounds] is
    at least 1; what it then prints is a non-negative float.  The [None]
    and the [nan] that the function returns for [bootstrap_rounds] unset or
    below 1 are never printed. *)
Theorem main_prints_radius_and_finite_sigma args s out s' :
  main World generateChain muTT random_choice linalg_inv args s = (inr out, s') ->
  exists rh,
    let head :=
      [PrintText "Computed GLM-MDA hydrodynamic radius [Ang]:"; PrintFloat rh] in
    match arg_bootstrap_rounds args with
    | Some rounds =>
        if (0 <? rounds)%Z
        then exists x,
               0 <= x
               /\ out = (head ++ [PrintText "MC uncertanity [Ang]:";
                                 PrintSigma (Some (Finite x))])%list
        else out = head
    | None => out = head
    end.
Proof.
  unfold main. intros H. apply bind_inr in H as (res & s1 & Hrun & H).
  apply (sigma_by_rounds generateChain muTT random_choice linalg_inv) in Hrun.
  exists (protein_rh res). cbv zeta.
  destruct (arg_bootstrap_rounds args) as [rounds |].
  - destruct (0 <? rounds)%Z.
    + destruct Hrun as (x & Hx & Hsigma). exists x. split; [exact Hx |].
      unfold ret in H. injection H as <- _. now rewrite Hsigma.
    + unfold ret in H. now injection H as <- _.
  - unfold ret in H. now injection H as <- _.
Qed.

(** X22.  The call of [examples/example.py] raises [ValueError] with the
    message ["Malformed seqence passed: "]: its sequence begins with a
    bracketed domain, so the first block of [re.split] is empty.  No
    conformation is generated. *)
Theorem example_script_is_rejected (s : machine World) :
  example World generateChain muTT random_choice linalg_inv s
  = (inl (ValueError "Malformed seqence passed: "), s).
Proof.
  unfold example, protein_hydrodynamic_radius, bind, lift.
  assert (H : _bead_description_compact 4.2 1.9025 0.52 3.0
                default_aminoacid_masses example_sequence
              = inl (ValueError "Malformed seqence passed: ")) by reflexivity.
  now rewrite H.
Qed.

End MainFacts.

(** * Instances *)

Lemma zero_density_raises hr sr hydration :
  _bead_description_compact hr sr 0 hydration default_aminoacid_masses "G[A]G"
  = inl ZeroDivisionError.
Proof.
  unfold _bead_description_compact.
  change (Re.split "G[A]G") with ["G"; "[A]"; "G"].
  rewrite for_blocks_cons.
  change (bead_of_block hr sr 0 hydration default_aminoacid_masses "G")
    with (@inr pyerror bead (hr, sr, 1%Z)).
  cbn [rbind]. rewrite for_blocks_cons. unfold bead_of_block at 1.
  change (is_domain_block "[A]") with true. cbv iota.
  change (PyStr.interior "[A]") with "A".
  cbn [sum_masses]. rewrite default_mass_A. cbn [rbind].
  now rewrite float_div_zero.
Qed.

Lemma parsed_bead_count_bounds_witness :
  let r := Rpower (4 * 71.08 * 3 / (4 * PI) / 0.52) (1 / 3) + 3.0 in
  let groups :=
    [(default_hydrodynamic_radius, default_steric_radius, 1%Z);
     (r, r, 1%Z);
     (default_hydrodynamic_radius, default_steric_radius, 1%Z)] in
  Forall (fun g => (1 <= bead_n g)%Z) groups
  /\ (1 <= total_count groups <= Z.of_nat (String.length "G[AAAA]G"))%Z
  /\ Z.of_nat (length (_bead_steric_radii groups)) = total_count groups
  /\ Z.of_nat (length (_bead_hydrodynamic_radii groups)) = total_count groups.
Proof.
  intros r groups.
  apply (parsed_bead_count_bounds
           default_hydrodynamic_radius default_steric_radius
           default_effective_density default_hydration_thickness
           default_aminoacid_masses "G[AAAA]G" groups).
  exact flanked_domain_radius.
Defined.

Lemma parsed_groups_interleave_witness :
  let r := Rpower (4 * 71.08 * 3 / (4 * PI) / 0.52) (1 / 3) + 3.0 in
  let groups :=
    [(default_hydrodynamic_radius, default_steric_radius, 1%Z);
     (r, r, 1%Z);
     (default_hydrodynamic_radius, default_steric_radius, 1%Z)] in
  (exists k, length groups = (2 * k + 1)%nat)
  /\ forall i g, groups !! (2 * i + 1)%nat = Some g ->
       bead_n g = 1%Z /\ bead_hr g = bead_sr g.
Proof.
  intros r groups.
  apply (parsed_groups_interleave
           default_hydrodynamic_radius default_steric_radius
           default_effective_density default_hydration_thickness
           default_aminoacid_masses "G[AAAA]G" groups).
  exact flanked_domain_radius.
Defined.

Lemma value_error_names_a_block_witness :
  exists block,
    In block (Re.split "[AA")
    /\ "Malformed seqence passed: [AA" = ("Malformed seqence passed: " ++ block)%string
    /\ is_domain_block block = false
    /\ is_linker_block block = false.
Proof.
  apply (value_error_names_a_block
           default_hydrodynamic_radius default_steric_radius
           default_effective_density default_hydration_thickness
           default_aminoacid_masses "[AA" "Malformed seqence passed: [AA").
  reflexivity.
Defined.

Lemma key_error_names_a_missing_character_witness :
  occurs "a" "G[Aa]G" /\ default_aminoacid_masses !! "a"%char = None.
Proof.
  apply (key_error_names_a_missing_character
           default_hydrodynamic_radius default_steric_radius
           default_effective_density default_hydration_thickness
           default_aminoacid_masses "G[Aa]G" "a").
  reflexivity.
Defined.

Lemma parser_exceptions_witness :
  (exists msg, ZeroDivisionError = ValueError msg)
  \/ (exists c, ZeroDivisionError = KeyError c)
  \/ (ZeroDivisionError = ZeroDivisionError
      /\ 0 = 0
      /\ exists block mass,
           In block (Re.split "G[A]G")
           /\ is_domain_block block = true
           /\ sum_masses default_aminoacid_masses (PyStr.interior block) 0
              = inr mass).
Proof.
  apply (parser_exceptions
           default_hydrodynamic_radius default_steric_radius
           0 default_hydration_thickness
           default_aminoacid_masses "G[A]G" ZeroDivisionError).
  apply zero_density_raises.
Defined.

Lemma parser_accepts_flanked_sequences_witness :
  let segs := [Free "G"; Bracketed "AAAA"; Free "G"] in
  (exists groups,
     _bead_description_compact default_hydrodynamic_radius default_steric_radius
       default_effective_density default_hydration_thickness
       default_aminoacid_masses (render segs)
     = inr groups)
  <-> flanked false segs = true
      /\ forallb (bracketed_known default_aminoacid_masses) segs = true
      /\ (default_effective_density = 0 -> bracketed_segments segs = 0%Z).
Proof.
  intros segs.
  apply (parser_accepts_flanked_sequences
           default_hydrodynamic_radius default_steric_radius
           default_effective_density default_hydration_thickness
           default_aminoacid_masses segs).
  reflexivity.
Defined.

Lemma bracket_free_sequence_is_one_linker_witness :
  _bead_description_compact default_hydrodynamic_radius default_steric_radius
    default_effective_density default_hydration_thickness
    default_aminoacid_masses "AAAA"
  = inr [(default_hydrodynamic_radius, default_steric_radius, 4%Z)].
Proof.
  apply (bracket_free_sequence_is_one_linker
           default_hydrodynamic_radius default_steric_radius
           default_effective_density default_hydration_thickness
           default_aminoacid_masses "AAAA").
  reflexivity.
Defined.

Lemma parsed_radii_are_positive_witness :
  let r := Rpower (4 * 71.08 * 3 / (4 * PI) / 0.52) (1 / 3) + 3.0 in
  let groups :=
    [(default_hydrodynamic_radius, default_steric_radius, 1%Z);
     (r, r, 1%Z);
     (default_hydrodynamic_radius, default_steric_radius, 1%Z)] in
  Forall (fun g =>
            0 < bead_hr g /\ 0 < bead_sr g
            /\ (g = (default_hydrodynamic_radius, default_steric_radius, bead_n g)
                \/ (default_hydration_thickness <= bead_hr g
                    /\ bead_hr g = bead_sr g /\ bead_n g = 1%Z)))
         groups.
Proof.
  intros r groups.
  apply (parsed_radii_are_positive
           default_hydrodynamic_radius default_steric_radius
           default_effective_density default_hydration_thickness
           default_aminoacid_masses "G[AAAA]G" groups).
  - unfold default_hydrodynamic_radius. lra.
  - unfold default_steric_radius. lra.
  - unfold default_hydration_thickness. lra.
  - unfold default_effective_density. lra.
  - exact default_masses_nonneg.
  - exact flanked_domain_radius.
Defined.

Lemma excluded_volume_is_mass_over_density_witness :
  4 / 3 * PI * excluded_volume_radius 1 2 ^ 3 = 1 / 2.
Proof. apply excluded_volume_is_mass_over_density; lra. Defined.

Lemma excluded_volume_radius_grows_with_mass_witness :
  excluded_volume_radius 0 1 < excluded_volume_radius 2 1.
Proof. apply excluded_volume_radius_grows_with_mass; lra. Defined.

Lemma parser_error_stops_the_run_witness :
  protein_hydrodynamic_radius unit StandIn.generateChain StandIn.muTT
    StandIn.random_choice StandIn.linalg_inv
    "[AA" default_steric_radius default_hydrodynamic_radius
    default_effective_density default_hydration_thickness
    default_ensemble_size default_bootstrap_rounds default_aminoacid_masses
    StandIn.start
  = (inl (ValueError "Malformed seqence passed: [AA"), StandIn.start).
Proof.
  apply (parser_error_stops_the_run StandIn.generateChain StandIn.muTT
           StandIn.random_choice StandIn.linalg_inv).
  reflexivity.
Defined.

Lemma returning_run_calls_witness :
  exists res s',
    protein_hydrodynamic_radius unit StandIn.generateChain StandIn.muTT
      StandIn.random_choice StandIn.linalg_inv
      "AAAA" default_steric_radius default_hydrodynamic_radius
      default_effective_density default_hydration_thickness
      2%Z (Some 3%Z) default_aminoacid_masses StandIn.start
    = (inr res, s')
    /\ exists bdc,
         _bead_description_compact default_hydrodynamic_radius
           default_steric_radius default_effective_density
           default_hydration_thickness default_aminoacid_masses "AAAA"
         = inr bdc
         /\ calls unit s'
            = (calls unit StandIn.start
               ++ replicate (Z.to_nat 2) (GenerateChain (_bead_steric_radii bdc))
               ++ replicate (Z.to_nat 3)
                    (RandomChoice (Z.to_nat 2) (Z.to_nat 2)))%list.
Proof.
  eexists _, _. split; [run_model; reflexivity |].
  eapply (returning_run_calls StandIn.generateChain StandIn.muTT
            StandIn.random_choice StandIn.linalg_inv
            "AAAA" default_steric_radius default_hydrodynamic_radius
            default_effective_density default_hydration_thickness
            2%Z (Some 3%Z) default_aminoacid_masses StandIn.start).
  run_model; reflexivity.
Defined.

Lemma protein_rh_ignores_bootstrap_rounds_witness :
  exists res1 s1 res2 s2,
    protein_hydrodynamic_radius unit StandIn.generateChain StandIn.muTT
      StandIn.random_choice StandIn.linalg_inv
      "AAAA" default_steric_radius default_hydrodynamic_radius
      default_effective_density default_hydration_thickness
      2%Z None default_aminoacid_masses StandIn.start
    = (inr res1, s1)
    /\ protein_hydrodynamic_radius unit StandIn.generateChain StandIn.muTT
         StandIn.random_choice StandIn.linalg_inv
         "AAAA" default_steric_radius default_hydrodynamic_radius
         default_effective_density default_hydration_thickness
         2%Z (Some 3%Z) default_aminoacid_masses StandIn.start
       = (inr res2, s2)
    /\ protein_rh res1 = protein_rh res2.
Proof.
  eexists _, _, _, _.
  split; [run_model; reflexivity |]. split; [run_model; reflexivity |].
  eapply (protein_rh_ignores_bootstrap_rounds StandIn.generateChain StandIn.muTT
            StandIn.random_choice StandIn.linalg_inv
            "AAAA" default_steric_radius default_hydrodynamic_radius
            default_effective_density default_hydration_thickness
            2%Z None (Some 3%Z) default_aminoacid_masses StandIn.start);
    run_model; reflexivity.
Defined.

Lemma reduction_error_stops_the_run_witness :
  protein_hydrodynamic_radius unit StandIn.generateChain StandIn.muTT
    StandIn.random_choice StandIn.singular
    "AAAA" default_steric_radius default_hydrodynamic_radius
    default_effective_density default_hydration_thickness
    2%Z (Some 3%Z) default_aminoacid_masses StandIn.start
  = (inl LinAlgError,
     {| world := tt;
        calls := replicate 2 (GenerateChain (replicate 4 default_steric_radius)) |}).
Proof.
  apply (reduction_error_stops_the_run StandIn.generateChain StandIn.muTT
           StandIn.random_choice StandIn.singular
           "AAAA" default_steric_radius default_hydrodynamic_radius
           default_effective_density default_hydration_thickness
           2%Z (Some 3%Z) default_aminoacid_masses
           [(default_hydrodynamic_radius, default_steric_radius, 4%Z)]
           LinAlgError StandIn.start).
  - reflexivity.
  - reflexivity.
Defined.

Lemma sigma_is_none_nan_or_nonnegative_witness :
  exists res s',
    protein_hydrodynamic_radius unit StandIn.generateChain StandIn.muTT
      StandIn.random_choice StandIn.linalg_inv
      "AAAA" default_steric_radius default_hydrodynamic_radius
      default_effective_density default_hydration_thickness
      2%Z (Some (-1)%Z) default_aminoacid_masses StandIn.start
    = (inr res, s')
    /\ protein_rh_sigma res = Some NaN.
Proof.
  eexists _, _. split; [run_model; reflexivity |].
  eapply (sigma_is_none_nan_or_nonnegative StandIn.generateChain StandIn.muTT
            StandIn.random_choice StandIn.linalg_inv
            "AAAA" default_steric_radius default_hydrodynamic_radius
            default_effective_density default_hydration_thickness
            2%Z (Some (-1)%Z) default_aminoacid_masses StandIn.start).
  - run_model; reflexivity.
  - lia.
Defined.

Lemma one_round_sigma_is_zero_witness :
  exists res s',
    protein_hydrodynamic_radius unit StandIn.generateChain StandIn.muTT
      StandIn.random_choice StandIn.linalg_inv
      "AAAA" default_steric_radius default_hydrodynamic_radius
      default_effective_density default_hydration_thickness
      2%Z (Some 1%Z) default_aminoacid_masses StandIn.start
    = (inr res, s')
    /\ protein_rh_sigma res = Some (Finite 0).
Proof.
  eexists _, _. split; [run_model; reflexivity |].
  eapply (one_round_sigma_is_zero StandIn.generateChain StandIn.muTT
            StandIn.random_choice StandIn.linalg_inv
            "AAAA" default_steric_radius default_hydrodynamic_radius
            default_effective_density default_hydration_thickness
            2%Z default_aminoacid_masses StandIn.start).
  run_model; reflexivity.
Defined.

Lemma main_prints_radius_and_finite_sigma_witness :
  let args :=
    {| arg_sequence := "AAAA";
       arg_steric_radius := 1.9025;
       arg_hydrodynamic_radius := 4.2;
       arg_effective_density := 0.52;
       arg_hydration_thickness := 3.0;
       arg_ensemble_size := 2;
       arg_bootstrap_rounds := Some 2%Z |} in
  exists out s',
    main unit StandIn.generateChain StandIn.muTT StandIn.random_choice
      StandIn.linalg_inv args StandIn.start
    = (inr out, s')
    /\ exists rh x,
         0 <= x
         /\ out = [PrintText "Computed GLM-MDA hydrodynamic radius [Ang]:";
                   PrintFloat rh;
                   PrintText "MC uncertanity [Ang]:";
                   PrintSigma (Some (Finite x))].
Proof.
  intros args. eexists _, _. split; [run_model; reflexivity |].
  edestruct (main_prints_radius_and_finite_sigma StandIn.generateChain StandIn.muTT
               StandIn.random_choice StandIn.linalg_inv args StandIn.start)
    as (rh & x & Hx & Hout).
  - run_model; reflexivity.
  - exists rh, x. split; [exact Hx | exact Hout].
Defined.

(** * Well-formed sequences: what is rejected and what is kept *)

Section WellFormedSequences.

Variables (hr sr density hydration : R).
Variable masses : gmap ascii R.

(** C6 (the code on the well-formed sequences of the claim).  A
    well-formed sequence in which free and bracketed segments do not
    alternate between a first and a last free segment (it begins or ends
    with a bracketed segment, or has two of them side by side) makes the
    parser raise: no bead group is produced, so there is no sum of counts
    to equal the residues of the free segments plus the bracketed
    segments.  ["[AAAA]"] is such a sequence. *)
Theorem unflanked_sequences_are_rejected segs :
  wf_segments segs = true ->
  flanked false segs = false ->
  exists e,
    _bead_description_compact hr sr density hydration masses (render segs)
    = inl e.
Proof.
  intros Hwf Hfl. unfold _bead_description_compact.
  rewrite (split_render segs Hwf).
  destruct (for_blocks hr sr density hydration masses (blocks_from "" segs) [])
    as [e | groups] eqn:Hloop; [now exists e |].
  destruct (returns_then_flanked hr sr density hydration masses segs false "" []
              groups Hwf eq_refl Hloop) as [Hfl' _].
  congruence.
Qed.

(** X23.  When the parser returns on a well-formed sequence, its groups
    stand for the segments one by one, in the order of the sequence (the
    linker triple with the number of residues for a free segment, one bead
    with equal radii for a bracketed one), and the counts add up to the
    residues of the free segments plus the number of bracketed
    segments. *)
Theorem accepted_sequence_keeps_order_and_count segs groups :
  wf_segments segs = true ->
  _bead_description_compact hr sr density hydration masses (render segs)
    = inr groups ->
  Forall2 (segment_bead hr sr) segs groups
  /\ map bead_n groups = map segment_count segs
  /\ total_count groups = (free_residues segs + bracketed_segments segs)%Z.
Proof.
  intros Hwf. unfold _bead_description_compact.
  rewrite (split_render segs Hwf). intros Hloop.
  destruct (for_blocks_segments hr sr density hydration masses segs false "" []
              groups Hwf eq_refl Hloop) as (new & -> & Hnew).
  cbn [app]. split; [| now apply (matches_counts hr sr density hydration masses)].
  eapply Forall2_impl; [exact Hnew |].
  intros [residues | residues] g; cbn [bead_matches segment_bead].
  - trivial.
  - intros (mass & _ & ->). split; reflexivity.
Qed.

End WellFormedSequences.

Lemma unflanked_sequences_are_rejected_witness :
  (free_residues [Bracketed "AAAA"] + bracketed_segments [Bracketed "AAAA"] = 1)%Z
  /\ exists e,
       _bead_description_compact default_hydrodynamic_radius default_steric_radius
         default_effective_density default_hydration_thickness
         default_aminoacid_masses "[AAAA]"
       = inl e.
Proof.
  split; [reflexivity |].
  apply (unflanked_sequences_are_rejected
           default_hydrodynamic_radius default_steric_radius
           default_effective_density default_hydration_thickness
           default_aminoacid_masses [Bracketed "AAAA"]).
  - reflexivity.
  - reflexivity.
Defined.

Lemma accepted_sequence_keeps_order_and_count_witness :
  let segs := [Free "G"; Bracketed "AAAA"; Free "G"] in
  let r := Rpower (4 * 71.08 * 3 / (4 * PI) / 0.52) (1 / 3) + 3.0 in
  let groups :=
    [(default_hydrodynamic_radius, default_steric_radius, 1%Z);
     (r, r, 1%Z);
     (default_hydrodynamic_radius, default_steric_radius, 1%Z)] in
  Forall2 (segment_bead default_hydrodynamic_radius default_steric_radius)
          segs groups
  /\ map bead_n groups = map segment_count segs
  /\ total_count groups = (free_residues segs + bracketed_segments segs)%Z.
Proof.
  intros segs r groups.
  apply (accepted_sequence_keeps_order_and_count
           default_hydrodynamic_radius default_steric_radius
           default_effective_density default_hydration_thickness
           default_aminoacid_masses segs groups).
  - reflexivity.
  - exact flanked_domain_radius.
Defined.

(** * The bootstrap rounds against the reduction of the design document *)

(** The reduction of the program, entry by entry, on any ensemble of at
    least one tensor of shape [(N, N, 3, 3)]. *)
Lemma reduction_is_entrywise
    (linalg_inv : matrix -> option matrix) (N : nat) (stack : list tensor) :
  (1 <= length stack)%nat ->
  Forall (has_shape N) stack ->
  effective_radius linalg_inv stack = Spec.effective_rh linalg_inv N stack.
Proof.
  intros HM Hshape. destruct stack as [| first rest]; [simpl in HM; lia |].
  unfold effective_radius, Spec.effective_rh.
  rewrite (trace_of_mean N first rest Hshape).
  destruct (linalg_inv _) as [inv_mat |]; [| reflexivity].
  unfold Np.sum. now rewrite sum_list_concat.
Qed.

Section BootstrapFacts.

Context {World : Type}.
Variable generateChain : list R -> World -> conformation * World.
Variable muTT : conformation -> list R -> tensor.
Variable random_choice : nat -> nat -> World -> list nat * World.
Variable linalg_inv : matrix -> option matrix.

(** The draws of a generator that returns [size] indices. *)
Lemma draws_sizes rounds m :
  (forall a size w, length (fst (random_choice a size w)) = size) ->
  forall w,
    Forall (fun indices => length indices = m)
           (fst (draws random_choice rounds m w)).
Proof.
  intros Hsize. induction rounds as [| r IH]; intros w; simpl; [constructor |].
  pose proof (Hsize m m w) as Hc.
  destruct (random_choice m m w) as [indices w1].
  specialize (IH w1). destruct (draws random_choice r m w1) as [rest w2].
  constructor; [exact Hc | exact IH].
Qed.

(** C5.  With [bootstrap_rounds >= 1], a run that returns has made
    [bootstrap_rounds] rounds, one call [np.random.choice(M, M)] each and
    nothing else after the [M] conformations.  Each round has used the
    [M] indices of its call as they came, all below [M] and repeats
    allowed, has gathered the [M] tensors of the ensemble at these
    indices, and its radius is the reduction of the design document on
    the gathered tensors: the mean entry by entry, the traces of the 3x3
    blocks, the inverse, the sum of the entries, the division by
    [2 * pi].  The value under ["protein_rh_sigma"] is the population
    standard deviation of these radii, dividing by [bootstrap_rounds].
    The generator is a parameter that returns as many indices as asked,
    and the mobility evaluator returns tensors of shape [(N, N, 3, 3)]
    for [N] radii; how the draws are distributed is [numpy]'s concern. *)
Theorem bootstrap_sigma_is_population_std
    sequence sr hr density hydration n rounds masses s res s' :
  (forall a size w, length (fst (random_choice a size w)) = size) ->
  (forall locations radii, has_shape (length radii) (muTT locations radii)) ->
  (1 <= rounds)%Z ->
  protein_hydrodynamic_radius World generateChain muTT random_choice linalg_inv
      sequence sr hr density hydration n (Some rounds) masses s
    = (inr res, s') ->
  exists bdc radii,
    _bead_description_compact hr sr density hydration masses sequence = inr bdc
    /\ let N := length (_bead_hydrodynamic_radii bdc) in
       let ensemble :=
         chains generateChain (Z.to_nat n) (_bead_steric_radii bdc) (world World s) in
       let grand_grand_mu :=
         map (fun locations => muTT locations (_bead_hydrodynamic_radii bdc))
             (fst ensemble) in
       let M := length grand_grand_mu in
       let index_lists :=
         fst (draws random_choice (Z.to_nat rounds) M (snd ensemble)) in
       (1 <= M)%nat
       /\ Spec.effective_rh linalg_inv N grand_grand_mu = inr (protein_rh res)
       /\ length index_lists = Z.to_nat rounds
       /\ calls World s'
          = (calls World s
             ++ replicate (Z.to_nat n) (GenerateChain (_bead_steric_radii bdc))
             ++ replicate (Z.to_nat rounds) (RandomChoice M M))%list
       /\ Forall2 (fun indices b_effective_rh =>
             length indices = M
             /\ Forall (fun i => (i < M)%nat) indices
             /\ exists resampled,
                  Forall2 (fun i t => grand_grand_mu !! i = Some t) indices resampled
                  /\ length resampled = M
                  /\ Spec.effective_rh linalg_inv N resampled = inr b_effective_rh)
           index_lists radii
       /\ protein_rh_sigma res
          = Some (Finite (Spec.population_std radii (IZR rounds))).
Proof.
  intros Hsize Hshape Hrounds Hrun.
  apply (protein_hydrodynamic_radius_inr generateChain muTT random_choice linalg_inv)
    in Hrun as (bdc & Hparse & Hrh & l & Hloop & Hsigma).
  pose proof (bootstrap_loop_state random_choice linalg_inv _ _ _ _ _ _ Hloop) as Hs'.
  apply (bootstrap_loop_inr random_choice linalg_inv) in Hloop as (radii & -> & Hradii).
  cbn [app world calls] in *.
  exists bdc, radii. split; [exact Hparse |]. cbv zeta.
  set (N := length (_bead_hydrodynamic_radii bdc)).
  set (ensemble := chains generateChain (Z.to_nat n) (_bead_steric_radii bdc)
                     (world World s)) in *.
  set (grand_grand_mu := map _ (fst ensemble)) in *.
  assert (HM : (1 <= length grand_grand_mu)%nat).
  { destruct grand_grand_mu; [discriminate Hrh | simpl; lia]. }
  assert (Hshapes : Forall (has_shape N) grand_grand_mu).
  { subst grand_grand_mu. apply Forall_fmap, Forall_forall.
    intros locations _. apply Hshape. }
  pose proof (draws_length random_choice (Z.to_nat rounds) (length grand_grand_mu)
                (snd ensemble)) as Hlen.
  split; [exact HM |]. split.
  { now rewrite <- (reduction_is_entrywise linalg_inv N grand_grand_mu HM Hshapes). }
  split; [exact Hlen |]. split.
  { rewrite Hs'. cbn [calls]. now rewrite <- app_assoc. }
  split.
  - pose proof (draws_sizes (Z.to_nat rounds) (length grand_grand_mu) Hsize
                  (snd ensemble)) as Hdraws.
    clear Hlen Hsigma Hs'.
    induction Hradii as [| indices x ds xs (resampled & Htake & Hx) _ IH];
      [constructor |].
    apply Forall_cons in Hdraws as [Hone Hdraws].
    constructor; [| now apply IH].
    apply take_indices_inr in Htake.
    assert (Hres : length resampled = length grand_grand_mu).
    { apply Forall2_length in Htake. congruence. }
    split; [exact Hone |]. split.
    { clear - Htake. induction Htake as [| i t others ts Hi _ IHt]; constructor;
        [now apply lookup_lt_Some in Hi | exact IHt]. }
    exists resampled. split; [exact Htake |]. split; [exact Hres |].
    rewrite <- (reduction_is_entrywise linalg_inv N resampled); [exact Hx | lia |].
    rewrite Forall_forall in Hshapes.
    clear - Htake Hshapes. induction Htake as [| i t others ts Hi _ IHt]; constructor;
      [| exact IHt].
    apply Hshapes. now apply list_elem_of_lookup_2 in Hi.
  - rewrite Hsigma. apply Forall2_length in Hradii. rewrite Hlen in Hradii.
    rewrite std_is_population_std.
    + rewrite <- Hradii, INR_IZR_INZ, Z2Nat.id by lia. reflexivity.
    + intros ->. simpl in Hradii. lia.
Qed.

(** X20.  With an ensemble of one conformation every bootstrap sample is
    that conformation again: the radii of the bootstrap rounds, whose
    standard deviation is reported, are all the radius under
    ["protein_rh"] (the generator of indices returning [size] indices
    below [a]). *)
Theorem single_conformation_bootstrap_radii_equal_protein_rh
    sequence sr hr density hydration rounds masses s res s' :
  (forall a size w, (0 < a)%nat ->
     length (fst (random_choice a size w)) = size
     /\ Forall (fun i => (i < a)%nat) (fst (random_choice a size w))) ->
  protein_hydrodynamic_radius World generateChain muTT random_choice linalg_inv
      sequence sr hr density hydration 1%Z (Some rounds) masses s
    = (inr res, s') ->
  exists effective_rh_list,
    length effective_rh_list = Z.to_nat rounds
    /\ Forall (fun b_effective_rh => b_effective_rh = protein_rh res)
              effective_rh_list
    /\ protein_rh_sigma res = Some (Np.std effective_rh_list).
Proof.
  intros Hchoice H.
  apply (protein_hydrodynamic_radius_inr generateChain muTT random_choice linalg_inv)
    in H as (bdc & _ & Hrh & l & Hloop & Hsigma).
  cbv zeta in Hrh, Hloop. exists l.
  split; [exact (bootstrap_loop_length random_choice linalg_inv _ _ _ _ _ Hloop) |].
  split; [| exact Hsigma].
  pose proof (chains_length generateChain (Z.to_nat 1) (_bead_steric_radii bdc)
                (world World s)) as Hlen.
  destruct (fst (chains generateChain (Z.to_nat 1) (_bead_steric_radii bdc)
                   (world World s))) as [| locations [| ? ?]];
    try discriminate Hlen.
  cbn [map] in Hrh, Hloop.
  set (t := muTT locations (_bead_hydrodynamic_radii bdc)) in *.
  apply (bootstrap_loop_inr random_choice linalg_inv) in Hloop
    as (radii & -> & Hradii).
  cbn [app length world] in *.
  pose proof (draws_in_range random_choice (Z.to_nat rounds) 1 Hchoice ltac:(lia)
                (snd (chains generateChain (Z.to_nat 1) (_bead_steric_radii bdc)
                        (world World s)))) as Hdraws.
  clear Hsigma.
  induction Hradii as [| indices x ds xs (resampled & Htake & Hx) _ IH];
    [constructor |].
  apply Forall_cons in Hdraws as [[Hone Hzero] Hdraws].
  constructor; [| now apply IH].
  destruct indices as [| i [| ? ?]]; try discriminate Hone.
  apply Forall_cons in Hzero as [Hi _].
  replace i with 0%nat in Htake by lia.
  cbn in Htake. injection Htake as <-. congruence.
Qed.

End BootstrapFacts.

Lemma has_shape_tabulate_tensor N f : has_shape N (tabulate_tensor N f).
Proof.
  unfold has_shape, tabulate_tensor, tabulate.
  split; [now rewrite length_map, length_seq |].
  apply Forall_fmap, Forall_forall. intros i _. cbn.
  split; [now rewrite length_map, length_seq |].
  apply Forall_fmap, Forall_forall. intros j _. cbn.
  split; [reflexivity |]. repeat constructor.
Qed.

(** A run with stand-ins for the collaborators: one bead, two
    conformations, three bootstrap rounds, a generator of indices that
    always draws 0, so that every sample repeats the first tensor. *)
Lemma bootstrap_sigma_is_population_std_witness :
  exists res s',
    protein_hydrodynamic_radius unit StandIn.generateChain StandIn.uncoupled
      StandIn.random_choice StandIn.linalg_inv
      "A" default_steric_radius default_hydrodynamic_radius
      default_effective_density default_hydration_thickness
      2%Z (Some 3%Z) default_aminoacid_masses StandIn.start
    = (inr res, s')
    /\ exists bdc radii,
         _bead_description_compact default_hydrodynamic_radius
           default_steric_radius default_effective_density
           default_hydration_thickness default_aminoacid_masses "A"
         = inr bdc
         /\ let N := length (_bead_hydrodynamic_radii bdc) in
            let ensemble :=
              chains StandIn.generateChain (Z.to_nat 2) (_bead_steric_radii bdc)
                     (world unit StandIn.start) in
            let grand_grand_mu :=
              map (fun locations =>
                     StandIn.uncoupled locations (_bead_hydrodynamic_radii bdc))
                  (fst ensemble) in
            let M := length grand_grand_mu in
            let index_lists :=
              fst (draws StandIn.random_choice (Z.to_nat 3) M (snd ensemble)) in
            (1 <= M)%nat
            /\ Spec.effective_rh StandIn.linalg_inv N grand_grand_mu
               = inr (protein_rh res)
            /\ length index_lists = Z.to_nat 3
            /\ calls unit s'
               = (calls unit StandIn.start
                  ++ replicate (Z.to_nat 2) (GenerateChain (_bead_steric_radii bdc))
                  ++ replicate (Z.to_nat 3) (RandomChoice M M))%list
            /\ Forall2 (fun indices b_effective_rh =>
                  length indices = M
                  /\ Forall (fun i => (i < M)%nat) indices
                  /\ exists resampled,
                       Forall2 (fun i t => grand_grand_mu !! i = Some t)
                               indices resampled
                       /\ length resampled = M
                       /\ Spec.effective_rh StandIn.linalg_inv N resampled
                          = inr b_effective_rh)
                index_lists radii
            /\ protein_rh_sigma res
               = Some (Finite (Spec.population_std radii 3)).
Proof.
  eexists _, _. split; [run_model; reflexivity |].
  eapply (bootstrap_sigma_is_population_std StandIn.generateChain StandIn.uncoupled
            StandIn.random_choice StandIn.linalg_inv
            "A" default_steric_radius default_hydrodynamic_radius
            default_effective_density default_hydration_thickness
            2%Z 3%Z default_aminoacid_masses StandIn.start).
  - intros a size w. cbn [StandIn.random_choice fst]. apply length_replicate.
  - intros locations radii. apply has_shape_tabulate_tensor.
  - lia.
  - run_model; reflexivity.
Defined.

Lemma single_conformation_bootstrap_radii_equal_protein_rh_witness :
  exists res s',
    protein_hydrodynamic_radius unit StandIn.generateChain StandIn.muTT
      StandIn.random_choice StandIn.linalg_inv
      "AAAA" default_steric_radius default_hydrodynamic_radius
      default_effective_density default_hydration_thickness
      1%Z (Some 3%Z) default_aminoacid_masses StandIn.start
    = (inr res, s')
    /\ exists effective_rh_list,
         length effective_rh_list = Z.to_nat 3
         /\ Forall (fun b_effective_rh => b_effective_rh = protein_rh res)
                   effective_rh_list
         /\ protein_rh_sigma res = Some (Np.std effective_rh_list).
Proof.
  eexists _, _. split; [run_model; reflexivity |].
  eapply (single_conformation_bootstrap_radii_equal_protein_rh
            StandIn.generateChain StandIn.muTT
            StandIn.random_choice StandIn.linalg_inv
            "AAAA" default_steric_radius default_hydrodynamic_radius
            default_effective_density default_hydration_thickness
            3%Z default_aminoacid_masses StandIn.start).
  - intros a size w Ha. cbn [StandIn.random_choice fst].
    split; [apply length_replicate | apply Forall_replicate; exact Ha].
  - run_model; reflexivity.
Defined.
